(** * bpm: action resolution and process orchestration

    A shallow embedding of [bpm/config.py], [bpm/logger.py] and [bpm/cli.py].
    Python dictionaries are association lists in insertion order, the
    console is the list of printed lines, [exit(1)] and exceptions are an
    explicit signal, and the operating system (process spawning, polling,
    signals, the file system) is an oracle passed to the code. *)

From Stdlib Require Import List String Ascii Bool Arith ZArith Lia.
From Stdlib Require Import DecimalString.
Import ListNotations.
Local Open Scope string_scope.
Local Open Scope list_scope.

(** ** Python built-ins *)

(** An f-string: the concatenation of its pieces. *)
Definition fstr (pieces : list string) : string := String.concat "" pieces.

(** [str(n)] for a length or a count. *)
Definition str_nat (n : nat) : string := NilEmpty.string_of_uint (Nat.to_uint n).

(** [str(z)] for an exit code or a process id. *)
Definition str_int (z : Z) : string := NilZero.string_of_int (Z.to_int z).

(** Truth value of an [Optional[bool]] field: [None] and [False] are falsy. *)
Definition truthy (b : option bool) : bool :=
  match b with Some true => true | _ => false end.

(** Truth value of a string: only the empty string is falsy. *)
Definition str_truthy (s : string) : bool :=
  match s with EmptyString => false | _ => true end.

(** [any] and [all] over a list of booleans. *)
Definition any (l : list bool) : bool := existsb (fun b => b) l.
Definition all (l : list bool) : bool := forallb (fun b => b) l.

(** [sum] over a list of booleans counts the [True] entries. *)
Definition sum (l : list bool) : nat := List.length (filter (fun b => b) l).

(** ** Dictionaries

    A [dict] keeps its keys in insertion order; assigning to a bound key
    replaces the value in place, assigning to a new key appends. *)

Section Dict.
Context {K V : Type} (K_eq_dec : forall x y : K, {x = y} + {x <> y}).

Definition dict := list (K * V).

Definition dict_keys (d : dict) : list K := map fst d.
Definition dict_values (d : dict) : list V := map snd d.
Definition dict_items (d : dict) : list (K * V) := d.

Fixpoint dict_get (k : K) (d : dict) : option V :=
    match d with
    | [] => None
    | (k', v) :: d' => if K_eq_dec k k' then Some v else dict_get k d'
    end.

Definition dict_mem (k : K) (d : dict) : bool :=
    match dict_get k d with Some _ => true | None => false end.

Fixpoint dict_set (k : K) (v : V) (d : dict) : dict :=
    match d with
    | [] => [(k, v)]
    | (k', v') :: d' =>
        if K_eq_dec k k' then (k', v) :: d' else (k', v') :: dict_set k v d'
    end.

Fixpoint dict_del (k : K) (d : dict) : dict :=
    match d with
    | [] => []
    | (k', v') :: d' =>
        if K_eq_dec k k' then d' else (k', v') :: dict_del k d'
    end.

  (** A dict display or comprehension: the items are assigned in turn. *)
Definition dict_of_items (items : list (K * V)) : dict :=
    fold_left (fun d kv => dict_set (fst kv) (snd kv) d) items [].

  (** The invariant of every Python dict: no key occurs twice. *)
Definition dict_wf (d : dict) : Prop := NoDup (dict_keys d).
End Dict.

Arguments dict : clear implicits.

Definition sdict (V : Type) := dict string V.
Definition sget {V} := @dict_get string V string_dec.
Definition sset {V} := @dict_set string V string_dec.
Definition smem {V} := @dict_mem string V string_dec.

(** ** pathlib

    A pure POSIX path: its anchor and its components.  [Path("//a")] keeps
    its two leading slashes and is anchored differently from [Path("/a")]. *)

Module pathlib.
Inductive anchor := Relative | Root | DoubleRoot.

Record Path := { anchor_of : anchor; parts : list string }.

Definition anchor_eq_dec (a b : anchor) : {a = b} + {a <> b}.
Proof. decide equality. Defined.

Definition Path_eq_dec (p q : Path) : {p = q} + {p <> q}.
Proof.
    decide equality; [apply (list_eq_dec string_dec) | apply anchor_eq_dec].
  Defined.

Fixpoint is_prefix (xs ys : list string) : bool :=
    match xs, ys with
    | [], _ => true
    | x :: xs', y :: ys' => if string_dec x y then is_prefix xs' ys' else false
    | _ :: _, [] => false
    end.

  (** [p.relative_to(other)] succeeds exactly when this holds; otherwise it
      raises [ValueError]. *)
Definition is_relative_to (p other : Path) : bool :=
    if anchor_eq_dec (anchor_of p) (anchor_of other)
    then is_prefix (parts other) (parts p) else false.

  (** [a / b]: an anchored right operand replaces the left one. *)
Definition joinpath (a b : Path) : Path :=
    match anchor_of b with
    | Relative => {| anchor_of := anchor_of a; parts := parts a ++ parts b |}
    | _ => b
    end.

Definition is_absolute (p : Path) : bool :=
    match anchor_of p with Relative => false | _ => true end.
End pathlib.
Import pathlib.

(** [str.split(sep)]: the pieces between the separators, empty pieces kept. *)
Fixpoint split_on (sep : ascii) (s : string) : list string :=
  match s with
  | EmptyString => [EmptyString]
  | String a s' =>
      if Ascii.eqb a sep then EmptyString :: split_on sep s'
      else match split_on sep s' with
           | [] => [String a EmptyString]
           | w :: ws => String a w :: ws
           end
  end.

Definition slash : ascii := "/"%char.

(** [Path(s)]: one or at least three leading slashes anchor at the root, two
    are kept as they are; empty and [.] components are dropped. *)
Definition parse_path (s : string) : Path :=
  {| anchor_of :=
       match s with
       | String a (String b (String c _)) =>
           if Ascii.eqb a slash
           then if Ascii.eqb b slash
                then if Ascii.eqb c slash then Root else DoubleRoot
                else Root
           else Relative
       | String a (String b EmptyString) =>
           if Ascii.eqb a slash
           then if Ascii.eqb b slash then DoubleRoot else Root
           else Relative
       | String a EmptyString => if Ascii.eqb a slash then Root else Relative
       | EmptyString => Relative
       end;
     parts := filter (fun w => negb (String.eqb w "") && negb (String.eqb w "."))
                     (split_on slash s) |}.

(** [str(p)] *)
Definition str_path (p : Path) : string :=
  let body := String.concat "/" (parts p) in
  match anchor_of p with
  | Relative => if str_truthy body then body else "."
  | Root => String slash body
  | DoubleRoot => String slash (String slash body)
  end.

(** ** Exceptions and results *)

Inductive exn :=
| SystemExit (code : Z)
| KeyboardInterrupt
| FileNotFoundError (strerror : string) (filename : option string)
| ValueError (msg : string)
| KeyError (key : string)
| TimeoutExpired
| Exception (msg : string).

Inductive result (A : Type) :=
| Ok (a : A)
| Raise (e : exn).
Arguments Ok {A} a.
Arguments Raise {A} e.

Definition rbind {A B} (r : result A) (k : A -> result B) : result B :=
  match r with Ok a => k a | Raise e => Raise e end.

Notation "x <-? r ; k" := (rbind r (fun x => k))
  (at level 61, r at next level, right associativity).

(** Validation of the items of a mapping, in order; the first failure ends it. *)
Fixpoint rmap {A B} (f : A -> result B) (l : list A) : result (list B) :=
  match l with
  | [] => Ok []
  | x :: l' => y <-? f x ; ys <-? rmap f l' ; Ok (y :: ys)
  end.

(** ** What the code takes from outside the repository

    [shlex.split] (which raises [ValueError] on an unbalanced quote) and
    termcolor's [colored]. *)
Class Externals := {
  shlex_split : string -> option (list string);
  colored : string -> string -> string
}.

(** ** bpm/config.py *)

(** The file-system and git facts that configuration loading reads. *)
Record Host := {
  git_returncode : Z;
  git_toplevel : string;          (* stdout of git rev-parse, stripped *)
  path_exists : Path -> bool
}.

Definition get_git_repo_root (h : Host) : result Path :=
  if (0 <? git_returncode h)%Z
  then Raise (FileNotFoundError "Not in a Git repository." None)
  else Ok (parse_path (git_toplevel h)).

(** [rebase_path(new_root, subdir)] with [subdir] a string, as both callers
    pass it. *)
Definition rebase_path (new_root : Path) (subdir : string) : Path :=
  let subdir_path := parse_path subdir in
  if is_relative_to subdir_path new_root then subdir_path
  else
    let subdir_str := str_path subdir_path in
    let rootless_path :=
      match subdir_str with
      | String a rest => if Ascii.eqb a slash then rest else subdir_str
      | EmptyString => subdir_str
      end in
    joinpath new_root (parse_path rootless_path).

Module Action.
Record t := {
    name : string;
    module_name : string;
    cmd : string;
    args : option bool;
    watch_cmd : option string;
    work_dir : Path;
    bg : option bool
  }.

  (** [__str__] *)
Definition str (a : t) : string := fstr [module_name a; "."; name a].

Definition eq_dec (a b : t) : {a = b} + {a <> b}.
Proof.
    decide equality;
      try apply string_dec; try apply Path_eq_dec;
      decide equality; try apply string_dec; apply bool_dec.
  Defined.
End Action.

(** The raw data of one action and one module, as the configuration file
    gives them. *)
Record RawAction := {
  raw_cmd : string;
  raw_args : option bool;
  raw_watch_cmd : option string;
  raw_work_dir : option string;
  raw_bg : option bool
}.

Record RawModule := {
  rawm_work_dir : string;
  rawm_actions : sdict RawAction
}.

Module Mod.
Record t := {
    name : string;
    work_dir : Path;
    actions : sdict Action.t
  }.

  (** Before validator: the module's working directory, rebased and turned
      back into a string. *)
Definition rebase_workdir_onto_git_repo_root (h : Host) (data : RawModule)
    : result RawModule :=
    repo_root <-? get_git_repo_root h ;
    Ok {| rawm_work_dir := str_path (rebase_path repo_root (rawm_work_dir data));
          rawm_actions := rawm_actions data |}.

  (** Before validator: fills [work_dir], [name] and [module_name] of every
      action.  A missing or empty [work_dir] takes the module's. *)
Definition set_additional_action_fields (h : Host) (module_name : string)
      (data : RawModule) : result (sdict Action.t) :=
    repo_root <-? get_git_repo_root h ;
    Ok (map (fun ka : string * RawAction =>
               let (k, a) := ka in
               let wd :=
                 match raw_work_dir a with
                 | Some w =>
                     if str_truthy w then rebase_path repo_root w
                     else parse_path (rawm_work_dir data)
                 | None => parse_path (rawm_work_dir data)
                 end in
               (k, {| Action.name := k;
                      Action.module_name := module_name;
                      Action.cmd := raw_cmd a;
                      Action.args := raw_args a;
                      Action.watch_cmd := raw_watch_cmd a;
                      Action.work_dir := wd;
                      Action.bg := raw_bg a |}))
            (dict_items (rawm_actions data))).

  (** After validator. *)
Definition assert_workdir_exists (h : Host) (self : t) : result t :=
    if negb (path_exists h (work_dir self)) then
      repo_root <-? get_git_repo_root h ;
      if is_relative_to (work_dir self) repo_root then
        Raise (ValueError
                 (fstr ["The workdir path '";
                        str_path {| anchor_of := Relative;
                                    parts := skipn (List.length (parts repo_root))
                                                   (parts (work_dir self)) |};
                        "' does not exist within the git repo root '";
                        str_path repo_root; "'"]))
      else Raise (ValueError "relative_to")
    else Ok self.

  (** Construction of a module: the before validators run last-declared
      first, then the fields are built, then the after validator runs. *)
Definition model_validate (h : Host) (module_name : string) (data : RawModule)
    : result t :=
    data1 <-? rebase_workdir_onto_git_repo_root h data ;
    acts <-? set_additional_action_fields h module_name data1 ;
    assert_workdir_exists h
      {| name := module_name;
         work_dir := parse_path (rawm_work_dir data1);
         actions := acts |}.
End Mod.

Module BPMConfig.
Record t := { modules : sdict Mod.t }.

  (** Construction: every module takes its key as its name and is validated
      in declaration order. *)
Definition model_validate (h : Host) (data : sdict RawModule) : result t :=
    ms <-? rmap (fun km : string * RawModule =>
                   m <-? Mod.model_validate h (fst km) (snd km) ;
                   Ok (fst km, m))
                (dict_items data) ;
    Ok {| modules := ms |}.

Definition falsy_list {A} (o : option (list A)) : bool :=
    match o with
    | None | Some [] => true
    | Some (_ :: _) => false
    end.

  (** The body of the inner loop of [all_actions]. *)
Definition add_action (cmds : sdict (list Action.t)) (item : string * Action.t)
    : sdict (list Action.t) :=
    let (c_name, c_data) := item in
    let cmds1 := if falsy_list (sget c_name cmds) then sset c_name [] cmds
                 else cmds in
    match sget c_name cmds1 with
    | Some l => sset c_name (l ++ [c_data]) cmds1
    | None => cmds1             (* not reached: the key is bound in cmds1 *)
    end.

Definition all_actions (self : t) : sdict (list Action.t) :=
    fold_left
      (fun cmds m => fold_left add_action (dict_items (Mod.actions m)) cmds)
      (dict_values (modules self)) [].

Definition action_groups (self : t) : sdict (list Action.t) :=
    dict_of_items string_dec
      (filter (fun nd : string * list Action.t => (1 <? List.length (snd nd))%nat)
              (dict_items (all_actions self))).

  (** A configuration value as Python holds it: dict keys are unique. *)
Definition wf (self : t) : Prop :=
    dict_wf (modules self) /\
    Forall (fun m => dict_wf (Mod.actions m)) (dict_values (modules self)).
End BPMConfig.

(** ** The running program

    What a child process does is fixed by the host: [Popen] carries the
    answers its methods will give. *)

Inductive read_event :=
| Line (text : string)              (* readline returned a decodable line *)
| ReadFails (e : exn).              (* readline or decode raised *)

(** A pipe: the results of the successive [readline] calls; the end of the
    list is the end of the file. *)
Record Stream := { stream_id : string; reads : list read_event }.

Record Popen := {
  pid : Z;
  poll : nat -> option Z;            (* poll() in the n-th round of the loop *)
  proc_stdout : Stream;
  proc_stderr : Stream;
  on_terminate : option exn;         (* terminate() raises this, if anything *)
  on_wait_timeout : option exn;      (* wait(timeout=3) *)
  on_kill : option exn;
  on_wait : option exn               (* wait() after kill() *)
}.

(** The host's answers to the calls of the orchestrator.  An interrupt
    arrives as [KeyboardInterrupt] raised by the call it lands in. *)
Record OS := {
  subprocess_Popen : list string -> Path -> result Popen;
  subprocess_run : list string -> Path -> result Z;
  time_sleep : nat -> result unit    (* the sleep that ends the n-th round *)
}.

Inductive os_call :=
| CallPopen (args : list string) (cwd : Path)
| CallRun (args : list string) (cwd : Path)
| CallTerminate (p : Z)
| CallWait (p : Z) (timeout : option Z)
| CallKill (p : Z)
| CallClose (stream : string).

Record State := {
  stdout : list string;                          (* lines printed so far *)
  processes : dict Action.t Popen;               (* ActionRunner.processes *)
  threads : list (Stream * string);              (* reader threads started *)
  calls : list os_call                           (* calls made to the host *)
}.

Definition initial_state : State :=
  {| stdout := []; processes := []; threads := []; calls := [] |}.

Inductive outcome (A : Type) :=
| Return (a : A)
| Raised (e : exn)
| OutOfFuel.
Arguments Return {A} a.
Arguments Raised {A} e.
Arguments OutOfFuel {A}.

Definition M (A : Type) : Type := State -> State * outcome A.

Definition ret {A} (a : A) : M A := fun s => (s, Return a).

Definition bind {A B} (m : M A) (k : A -> M B) : M B :=
  fun s =>
    match m s with
    | (s', Return a) => k a s'
    | (s', Raised e) => (s', Raised e)
    | (s', OutOfFuel) => (s', OutOfFuel)
    end.

Notation "x <- m ;; k" := (bind m (fun x => k))
  (at level 61, m at next level, right associativity).
Notation "m ;; k" := (bind m (fun _ => k))
  (at level 61, right associativity).

Definition raise {A} (e : exn) : M A := fun s => (s, Raised e).

Definition lift {A} (r : result A) : M A :=
  match r with Ok a => ret a | Raise e => raise e end.

(** [try: body except <catches> as e: handler e] *)
Definition try_except {A} (body : M A) (catches : exn -> bool)
    (handler : exn -> M A) : M A :=
  fun s =>
    match body s with
    | (s', Raised e) => if catches e then handler e s' else (s', Raised e)
    | r => r
    end.

(** [try: body finally: final] *)
Definition try_finally {A} (body : M A) (final : M unit) : M A :=
  fun s =>
    match body s with
    | (s', OutOfFuel) => (s', OutOfFuel)
    | (s', r) =>
        match final s' with
        | (s'', Return _) => (s'', r)
        | (s'', Raised e) => (s'', Raised e)
        | (s'', OutOfFuel) => (s'', OutOfFuel)
        end
    end.

(** [for x in l: body x] *)
Fixpoint for_each {A} (l : list A) (body : A -> M unit) : M unit :=
  match l with
  | [] => ret tt
  | x :: l' => body x ;; for_each l' body
  end.

(** [when c: m] is [if c: m]. *)
Definition when (c : bool) (m : M unit) : M unit := if c then m else ret tt.

Definition is_Exception (e : exn) : bool :=
  match e with SystemExit _ | KeyboardInterrupt => false | _ => true end.

Definition is_KeyboardInterrupt (e : exn) : bool :=
  match e with KeyboardInterrupt => true | _ => false end.

Definition is_FileNotFoundError (e : exn) : bool :=
  match e with FileNotFoundError _ _ => true | _ => false end.

Definition is_TimeoutExpired (e : exn) : bool :=
  match e with TimeoutExpired => true | _ => false end.

(** A method of a child process that raises what the host says, if anything. *)
Definition may_raise (e : option exn) : M unit :=
  match e with Some e => raise e | None => ret tt end.

(** [str(e)] *)
Definition str_exn (e : exn) : string :=
  match e with
  | SystemExit c => str_int c
  | KeyboardInterrupt => ""
  | FileNotFoundError m None => m
  | FileNotFoundError m (Some f) => fstr ["[Errno 2] "; m; ": '"; f; "'"]
  | ValueError m => m
  | KeyError k => fstr ["'"; k; "'"]
  | TimeoutExpired => "Command timed out after 3 seconds"
  | Exception m => m
  end.

Definition print (line : string) : M unit :=
  fun s => ({| stdout := stdout s ++ [line]; processes := processes s;
               threads := threads s; calls := calls s |}, Return tt).

Definition record_call (c : os_call) : M unit :=
  fun s => ({| stdout := stdout s; processes := processes s;
               threads := threads s; calls := calls s ++ [c] |}, Return tt).

Definition get_processes : M (dict Action.t Popen) :=
  fun s => (s, Return (processes s)).

Definition set_processes (d : dict Action.t Popen) : M unit :=
  fun s => ({| stdout := stdout s; processes := d;
               threads := threads s; calls := calls s |}, Return tt).

(** [threading.Thread(target=..., args=(stream, prefix), daemon=True).start()] *)
Definition start_thread (stream : Stream) (prefix : string) : M unit :=
  fun s => ({| stdout := stdout s; processes := processes s;
               threads := threads s ++ [(stream, prefix)];
               calls := calls s |}, Return tt).

(** [exit(code)] and [sys.exit(code)] *)
Definition exit {A} (code : Z) : M A := raise (SystemExit code).

(** [d[k]] *)
Definition getitem {V} (k : string) (d : sdict V) : M V :=
  match sget k d with
  | Some v => ret v
  | None => raise (KeyError k)
  end.

Definition nl : string := String (ascii_of_nat 10) EmptyString.

(** ** bpm/logger.py *)

Module logger.
Section Logger.
Context `{Externals}.

Definition debug (message : string) : M unit :=
    print (fstr [colored "DEBUG" "blue"; ": "; message]).

Definition info (message : string) : M unit :=
    print (fstr ["INFO: "; message]).

Definition warn (message : string) : M unit :=
    print (fstr [colored "WARN" "yellow"; ": "; message]).

Definition error (message : string) (exiting : bool) : M unit :=
    print (fstr [colored "ERROR" "red"; ": "; message]) ;;
    when exiting (exit 1).

  (** The line that [error] prints. *)
Definition error_line (message : string) : string :=
    fstr [colored "ERROR" "red"; ": "; message].

Definition warn_line (message : string) : string :=
    fstr [colored "WARN" "yellow"; ": "; message].
End Logger.
End logger.

(** ** bpm/cli.py *)

(** What [parser.parse_args()] returns. *)
Record Namespace := {
  ns_module : option string;
  ns_action : string;
  ns_args : list string
}.

Definition nonempty {A} (l : list A) : bool :=
  match l with [] => false | _ :: _ => true end.

Module Args.
Record t := {
    module : option Mod.t;
    actions : list Action.t;
    args : list string
  }.

Section Args.
Context `{Externals}.

  (** The messages of the four fatal errors and of the warning. *)
Definition unknown_module_msg (config : BPMConfig.t) (m : string) : string :=
    fstr ["Unknown module '"; m; "'. Allowed options are: ";
          String.concat ", " (dict_keys (BPMConfig.modules config))].

Definition unknown_action_msg (module : Mod.t) (m action : string) : string :=
    fstr ["Action '"; action; "' is not defined for module '"; m;
          "'. Available actions are: ";
          String.concat ", " (dict_keys (Mod.actions module))].

Definition args_not_allowed_msg (m action : string) (given : list string)
    : string :=
    fstr ["The '"; action; "' action on module '"; m;
          "' does not allow additional arguments, but ";
          str_nat (List.length given); " were given."].

Definition not_a_group_msg (action : string) : string :=
    fstr ["The '"; action;
          "' action is not used by more than one module. To run it, use the `-m <module>` argument to run it within that module's context."].

Definition group_args_not_allowed_msg (action : string) : string :=
    fstr ["None of the actions within the '"; action;
          "' action group accept additional arguments."].

Definition partial_args_msg (action : string) (yes total no : nat) : string :=
    fstr ["Additional arguments were given to the '"; action;
          "' action group, but only "; str_nat yes; " of "; str_nat total;
          " actions accept them. The arguments will be ignored for the other ";
          (if (no <=? 1)%nat then "action" else fstr [str_nat no; " actions"]);
          "."].

  (** The branch taken when [args.module] is truthy (lines 44-68). *)
Definition module_branch (config : BPMConfig.t) (ns : Namespace)
      (module_arg : string) : M t :=
    when (negb (smem module_arg (BPMConfig.modules config)))
         (logger.error (unknown_module_msg config module_arg) true) ;;
    self_module <- getitem module_arg (BPMConfig.modules config) ;;
    when (negb (smem (ns_action ns) (Mod.actions self_module)))
         (logger.error (unknown_action_msg self_module module_arg (ns_action ns))
                       true) ;;
    a <- getitem (ns_action ns) (Mod.actions self_module) ;;
    when (nonempty (ns_args ns) && negb (truthy (Action.args a)))
         (logger.error (args_not_allowed_msg module_arg (ns_action ns) (ns_args ns))
                       true) ;;
    ret {| module := Some self_module; actions := [a]; args := ns_args ns |}.

  (** The branch taken otherwise (lines 70-98). *)
Definition group_branch (config : BPMConfig.t) (ns : Namespace) : M t :=
    let ags := BPMConfig.action_groups config in
    when (negb (smem (ns_action ns) ags))
         (logger.error (not_a_group_msg (ns_action ns)) true) ;;
    self_actions <- getitem (ns_action ns) ags ;;
    when (nonempty (ns_args ns))
         (let actions_accepting_args :=
            map (fun a => if truthy (Action.args a) then true else false)
                self_actions in
          if negb (any actions_accepting_args) then
            logger.error (group_args_not_allowed_msg (ns_action ns)) true
          else if negb (all actions_accepting_args) then
            let yes := sum actions_accepting_args in
            let no := List.length self_actions - sum actions_accepting_args in
            logger.warn (partial_args_msg (ns_action ns) yes
                                          (List.length self_actions) no)
          else ret tt) ;;
    ret {| module := None; actions := self_actions; args := ns_args ns |}.

  (** [if args.module:] holds for a module name that is given and not the
      empty string. *)
Definition __init__ (config : BPMConfig.t) (ns : Namespace) : M t :=
    match ns_module ns with
    | Some module_arg =>
        if str_truthy module_arg then module_branch config ns module_arg
        else group_branch config ns
    | None => group_branch config ns
    end.
End Args.
End Args.

Module ActionRunner.
Record t := {
    actions : list Action.t;
    can_run_simultaneously : bool;
    action_args : list string
  }.

Definition __init__ (args : Args.t) : t :=
    {| actions := Args.actions args;
       can_run_simultaneously :=
         all (map (fun a => truthy (Action.bg a)) (Args.actions args));
       action_args := Args.args args |}.

Section ActionRunner.
Context `{Externals}.

  (** [rstrip()] of a decoded line. *)
Definition is_space (c : ascii) : bool :=
    let n := nat_of_ascii c in
    ((n =? 32) || ((9 <=? n) && (n <=? 13)) || ((28 <=? n) && (n <=? 31)))%nat.

Fixpoint rstrip (s : string) : string :=
    match s with
    | EmptyString => EmptyString
    | String c s' =>
        match rstrip s' with
        | EmptyString => if is_space c then EmptyString else String c EmptyString
        | r => String c r
        end
    end.

  (** The loop [for line in iter(stream.readline, b"")]. *)
Fixpoint read_loop (events : list read_event) (prefix : string) : M unit :=
    match events with
    | [] => ret tt
    | Line text :: rest =>
        when (str_truthy text)
             (print (fstr ["["; prefix; "] "; rstrip text])) ;;
        read_loop rest prefix
    | ReadFails e :: _ => raise e
    end.

  (** The body of one reader thread. *)
Definition _stream_output (stream : Stream) (prefix : string) : M unit :=
    try_finally
      (try_except (read_loop (reads stream) prefix) is_Exception
         (fun e => logger.error
                     (fstr ["["; prefix; "] Error reading stream: "; str_exn e])
                     true))
      (record_call (CallClose (stream_id stream))).

  (** [shlex.split(action.cmd) + self.action_args] *)
Definition command_of (self : t) (action : Action.t) : M (list string) :=
    match shlex_split (Action.cmd action) with
    | Some tokens => ret (tokens ++ action_args self)
    | None => raise (ValueError "No closing quotation")
    end.

Definition spawn_error_msg (e : exn) : string :=
    match e with
    | FileNotFoundError strerror filename =>
        fstr [strerror; ": ";
              match filename with Some f => f | None => "None" end]
    | _ => ""
    end.

  (** One iteration of the spawning loop (lines 141-183). *)
Definition spawn (os : OS) (self : t) (action : Action.t) : M unit :=
    let prefix := fstr [Action.module_name action; "."; Action.name action] in
    logger.info (fstr ["Running action "; Action.str action]) ;;
    command <- command_of self action ;;
    record_call (CallPopen command (Action.work_dir action)) ;;
    mproc <- try_except
               (proc <- lift (subprocess_Popen os command (Action.work_dir action)) ;;
                ret (Some proc))
               is_FileNotFoundError
               (fun e => logger.error (spawn_error_msg e) true ;; ret None) ;;
    match mproc with
    | None => raise (Exception "UnboundLocalError: proc")
    | Some proc =>
        start_thread (proc_stdout proc) prefix ;;
        start_thread (proc_stderr proc)
                     (fstr [prefix; " "; colored "ERR" "red"]) ;;
        ps <- get_processes ;;
        set_processes (dict_set Action.eq_dec action proc ps)
    end.

  (** One pass over [list(self.processes.items())] (lines 188-194). *)
Definition poll_all (round : nat) : M unit :=
    ps <- get_processes ;;
    for_each (dict_items ps)
      (fun ap : Action.t * Popen =>
         let (action, proc) := ap in
         match poll proc round with
         | Some code =>
             logger.info (fstr ["Action "; Action.str action;
                                " completed with exit code "; str_int code]) ;;
             ps' <- get_processes ;;
             set_processes (dict_del Action.eq_dec action ps')
         | None => ret tt
         end).

  (** [while self.processes:] (lines 186-198); [fuel] bounds the rounds. *)
Fixpoint wait_loop (os : OS) (fuel round : nat) : M unit :=
    ps <- get_processes ;;
    if nonempty ps then
      match fuel with
      | O => fun s => (s, OutOfFuel)
      | S fuel' =>
          poll_all round ;;
          ps' <- get_processes ;;
          when (nonempty ps') (lift (time_sleep os round)) ;;
          wait_loop os fuel' (S round)
      end
    else ret tt.

  (** Teardown of one process (lines 243-255). *)
Definition kill_one (ap : Action.t * Popen) : M unit :=
    let (action, proc) := ap in
    try_except
      (record_call (CallTerminate (pid proc)) ;;
       may_raise (on_terminate proc) ;;
       try_except
         (record_call (CallWait (pid proc) (Some 3%Z)) ;;
          may_raise (on_wait_timeout proc))
         is_TimeoutExpired
         (fun _ =>
            record_call (CallKill (pid proc)) ;;
            may_raise (on_kill proc) ;;
            record_call (CallWait (pid proc) None) ;;
            may_raise (on_wait proc)) ;;
       logger.info (fstr ["Killed process for "; Action.str action;
                          " (PID: "; str_int (pid proc); ")"]))
      is_Exception
      (fun e => logger.error (fstr ["Error killing process for ";
                                    Action.str action; ": "; str_exn e])
                             false).

Definition _kill_all_processes : M unit :=
    ps <- get_processes ;;
    for_each (dict_items ps) kill_one ;;
    set_processes [].

  (** The body of the [try] of the concurrent branch (lines 140-201). *)
Definition spawn_and_wait (os : OS) (fuel : nat) (self : t) : M unit :=
  for_each (actions self) (spawn os self) ;;
  wait_loop os fuel 0 ;;
  print "" ;;
  logger.info "All actions completed.".

(** The handler of [KeyboardInterrupt] (lines 203-207). *)
Definition on_interrupt : M unit :=
  print "" ;;
  logger.warn "Received interrupt, killing all child processes..." ;;
  _kill_all_processes ;;
  exit 1.

(** The concurrent branch of [run] (lines 138-207). *)
Definition run_simultaneously (os : OS) (fuel : nat) (self : t) : M unit :=
  logger.info (fstr ["Running all actions within the action group simultaneously.";
                     nl]) ;;
  try_except (spawn_and_wait os fuel self) is_KeyboardInterrupt
             (fun _ => on_interrupt).

(** One iteration of the sequential loop (lines 212-232). *)
Definition run_one (os : OS) (self : t) (action : Action.t) : M unit :=
    print "" ;;
    logger.info (fstr ["Running action "; Action.str action]) ;;
    command <- command_of self action ;;
    record_call (CallRun command (Action.work_dir action)) ;;
    try_except
      (code <- lift (subprocess_run os command (Action.work_dir action)) ;;
       logger.info (fstr ["Action "; Action.str action;
                          " completed with exit code "; str_int code]))
      is_FileNotFoundError
      (fun e => logger.error (spawn_error_msg e) true).

  (** The sequential branch of [run] (lines 209-235). *)
Definition run_in_series (os : OS) (self : t) : M unit :=
    logger.info "One or more actions within the action group cannot run simultaneously. Running them in series." ;;
    for_each (actions self) (run_one os self) ;;
    print "" ;;
    logger.info "All processes completed".

Definition run (os : OS) (fuel : nat) (self : t) : M unit :=
    if can_run_simultaneously self then run_simultaneously os fuel self
    else run_in_series os self.
End ActionRunner.
End ActionRunner.

(** [main], from the loaded configuration on. *)
Definition main `{Externals} (config : BPMConfig.t) (ns : Namespace) (os : OS)
    (fuel : nat) : M unit :=
  args <- Args.__init__ config ns ;;
  ActionRunner.run os fuel (ActionRunner.__init__ args).

(** ** The notions the specification speaks of *)

(** The actions called [n], one per module that defines it, in the order
    in which the modules are declared. *)
Definition named_in (n : string) (m : Mod.t) : list Action.t :=
  match sget n (Mod.actions m) with Some a => [a] | None => [] end.

Definition actions_named (n : string) (config : BPMConfig.t) : list Action.t :=
  flat_map (named_in n) (dict_values (BPMConfig.modules config)).

(** The number of modules that define an action called [n]. *)
Definition modules_defining (n : string) (config : BPMConfig.t) : nat :=
  List.length (filter (fun m => smem n (Mod.actions m))
                      (dict_values (BPMConfig.modules config))).

(** A mapping entry exists exactly for the names with at least one action. *)
Definition entry_of (l : list Action.t) : option (list Action.t) :=
  match l with [] => None | _ :: _ => Some l end.

(** ** A sample project

    Two modules, [api] and [web].  Both define [start] and [dev]; only
    [api] defines [build].  [api.start] takes no extra arguments and may not
    run in the background; [web.start] takes them and may. *)

Definition words (s : string) : list string :=
  filter str_truthy (split_on " "%char s).

(** Externals for the examples: blank-separated words, no colours. *)
Definition plain : Externals :=
  {| shlex_split := fun s => Some (words s);
     colored := fun text _ => text |}.

Definition api_start : Action.t :=
  {| Action.name := "start"; Action.module_name := "api";
     Action.cmd := "uvicorn app"; Action.args := Some false;
     Action.watch_cmd := None; Action.work_dir := parse_path "/repo/api";
     Action.bg := Some false |}.

Definition api_build : Action.t :=
  {| Action.name := "build"; Action.module_name := "api";
     Action.cmd := "make"; Action.args := Some false;
     Action.watch_cmd := None; Action.work_dir := parse_path "/repo/api";
     Action.bg := Some false |}.

Definition api_dev : Action.t :=
  {| Action.name := "dev"; Action.module_name := "api";
     Action.cmd := "uvicorn app --reload"; Action.args := Some false;
     Action.watch_cmd := None; Action.work_dir := parse_path "/repo/api";
     Action.bg := Some true |}.

Definition web_start : Action.t :=
  {| Action.name := "start"; Action.module_name := "web";
     Action.cmd := "npm start"; Action.args := Some true;
     Action.watch_cmd := None; Action.work_dir := parse_path "/repo/web";
     Action.bg := Some true |}.

Definition web_dev : Action.t :=
  {| Action.name := "dev"; Action.module_name := "web";
     Action.cmd := "vite"; Action.args := Some true;
     Action.watch_cmd := None; Action.work_dir := parse_path "/repo/web";
     Action.bg := Some true |}.

Definition api_module : Mod.t :=
  {| Mod.name := "api"; Mod.work_dir := parse_path "/repo/api";
     Mod.actions := [("start", api_start); ("build", api_build);
                     ("dev", api_dev)] |}.

Definition web_module : Mod.t :=
  {| Mod.name := "web"; Mod.work_dir := parse_path "/repo/web";
     Mod.actions := [("start", web_start); ("dev", web_dev)] |}.

Definition sample_config : BPMConfig.t :=
  {| BPMConfig.modules := [("api", api_module); ("web", web_module)] |}.

(** The state after the control thread has printed [lines]. *)
Definition printed (s : State) (lines : list string) : State :=
  {| stdout := stdout s ++ lines; processes := processes s;
     threads := threads s; calls := calls s |}.

(** A failed resolution: the error line is printed and [exit(1)] raised. *)
Definition fails_with `{Externals} {A} (msg : string) (s : State)
  : State * outcome A :=
  (printed s [logger.error_line msg], Raised (SystemExit 1)).

(** Which actions of a list take extra arguments. *)
Definition accepting (acts : list Action.t) : list bool :=
  map (fun a => truthy (Action.args a)) acts.

(** No module qualifier reaches the resolver: [--module] is absent or empty. *)
Definition unqualified (ns : Namespace) : Prop :=
  ns_module ns = None \/ ns_module ns = Some "".

(** A host on which nothing can be launched. *)
Definition barren_os : OS :=
  {| subprocess_Popen := fun args _ =>
       Raise (FileNotFoundError "No such file or directory" (hd_error args));
     subprocess_run := fun args _ =>
       Raise (FileNotFoundError "No such file or directory" (hd_error args));
     time_sleep := fun _ => Ok tt |}.

(** Requests against the sample project. *)
Definition deploy_build_request : Namespace :=
  {| ns_module := Some "deploy"; ns_action := "build"; ns_args := [] |}.

Definition empty_qualifier_request : Namespace :=
  {| ns_module := Some ""; ns_action := "start"; ns_args := [] |}.

Definition start_verbose_request : Namespace :=
  {| ns_module := None; ns_action := "start"; ns_args := ["--verbose"] |}.

Definition build_request : Namespace :=
  {| ns_module := None; ns_action := "build"; ns_args := [] |}.

(** ** Sample hosts *)

Definition pipe (name : string) (events : list read_event) : Stream :=
  {| stream_id := name; reads := events |}.

(** A child that is found exited with [code] from the round [exits_at] on
    and that obeys [terminate()] at once. *)
Definition child (p : Z) (exits_at : option nat) (code : Z) : Popen :=
  {| pid := p;
     poll := fun round =>
       match exits_at with
       | Some n => if (n <=? round)%nat then Some code else None
       | None => None
       end;
     proc_stdout := pipe "stdout" [];
     proc_stderr := pipe "stderr" [];
     on_terminate := None; on_wait_timeout := None;
     on_kill := None; on_wait := None |}.

(** A child that ignores [terminate()] and has to be killed. *)
Definition stubborn_child (p : Z) : Popen :=
  {| pid := p; poll := fun _ => None;
     proc_stdout := pipe "stdout" []; proc_stderr := pipe "stderr" [];
     on_terminate := None; on_wait_timeout := Some TimeoutExpired;
     on_kill := None; on_wait := None |}.

Definition program (args : list string) : string :=
  match args with [] => "" | p :: _ => p end.

Definition not_found {A} (args : list string) : result A :=
  Raise (FileNotFoundError "No such file or directory" (Some (program args))).

(** Every program of the sample project is installed; children exit by
    themselves. *)
Definition healthy_os : OS :=
  {| subprocess_Popen := fun args _ =>
       if String.eqb (program args) "uvicorn" then Ok (child 101 (Some 0) 0)
       else if String.eqb (program args) "vite" then Ok (child 102 (Some 1) 0)
       else if String.eqb (program args) "npm" then Ok (child 103 (Some 0) 2)
       else not_found args;
     subprocess_run := fun args _ =>
       if String.eqb (program args) "uvicorn" then Ok 0%Z
       else if String.eqb (program args) "npm" then Ok 2%Z
       else not_found args;
     time_sleep := fun _ => Ok tt |}.

(** [vite] is not installed. *)
Definition vite_missing_os : OS :=
  {| subprocess_Popen := fun args _ =>
       if String.eqb (program args) "uvicorn" then Ok (child 101 None 0)
       else not_found args;
     subprocess_run := fun args _ => not_found args;
     time_sleep := fun _ => Ok tt |}.

(** Two servers that never exit; the user interrupts the first sleep, and
    the second server ignores the request to terminate. *)
Definition interrupted_os : OS :=
  {| subprocess_Popen := fun args _ =>
       if String.eqb (program args) "uvicorn" then Ok (child 101 None 0)
       else if String.eqb (program args) "vite" then Ok (stubborn_child 102)
       else not_found args;
     subprocess_run := fun args _ => not_found args;
     time_sleep := fun _ => Raise KeyboardInterrupt |}.

Definition dev_request : Namespace :=
  {| ns_module := None; ns_action := "dev"; ns_args := [] |}.

Definition dev_verbose_request : Namespace :=
  {| ns_module := None; ns_action := "dev"; ns_args := ["--verbose"] |}.

(** ** Relations between the states before and after a computation *)

(** [m] takes every state to one related to it by [R], however it ends. *)
Definition preserves (R : State -> State -> Prop) {A} (m : M A) : Prop :=
  forall s, R s (fst (m s)).

(** The calls made since [s] all satisfy [P]. *)
Definition calls_extend (P : os_call -> bool) (s s' : State) : Prop :=
  exists l, calls s' = calls s ++ l /\ forallb P l = true.

(** The live set and the reader threads are as they were. *)
Definition same_children (s s' : State) : Prop :=
  processes s' = processes s /\ threads s' = threads s.

Definition is_CallRun (c : os_call) : bool :=
  match c with CallRun _ _ => true | _ => false end.

(** ** Teardown, as the specification words it

    For each live process: request termination, wait up to three seconds,
    and, if it is still alive then, kill it and wait for its exit. *)

Definition grace_period : Z := 3.

Definition teardown_calls (p : Popen) : list os_call :=
  CallTerminate (pid p) ::
  match on_terminate p with
  | Some _ => []
  | None =>
      CallWait (pid p) (Some grace_period) ::
      match on_wait_timeout p with
      | Some TimeoutExpired =>
          CallKill (pid p) ::
          match on_kill p with
          | Some _ => []
          | None => [CallWait (pid p) None]
          end
      | _ => []
      end
  end.

(** The first failure met while tearing one process down, if any. *)
Definition teardown_failure (p : Popen) : option exn :=
  match on_terminate p with
  | Some e => Some e
  | None =>
      match on_wait_timeout p with
      | None => None
      | Some TimeoutExpired =>
          match on_kill p with
          | Some e => Some e
          | None => on_wait p
          end
      | Some e => Some e
      end
  end.

(** The line reported for one process. *)
Definition teardown_report `{Externals} (ap : Action.t * Popen) : string :=
  match teardown_failure (snd ap) with
  | None =>
      fstr ["INFO: ";
            fstr ["Killed process for "; Action.str (fst ap);
                  " (PID: "; str_int (pid (snd ap)); ")"]]
  | Some e =>
      logger.error_line
        (fstr ["Error killing process for "; Action.str (fst ap); ": ";
               str_exn e])
  end.

(** Only one cancellation pass is supported: what goes wrong during
    teardown is an ordinary exception, not a further interrupt or exit. *)
Definition no_second_interrupt (p : Popen) : Prop :=
  forall e, teardown_failure p = Some e -> is_Exception e = true.

(** The state once every process of the live set has been torn down. *)
Definition torn_down `{Externals} (s : State) : State :=
  {| stdout := stdout s ++ map teardown_report (processes s);
     processes := [];
     threads := threads s;
     calls := calls s ++ flat_map (fun ap => teardown_calls (snd ap))
                                  (processes s) |}.

Definition interrupt_notice `{Externals} : list string :=
  [""; logger.warn_line "Received interrupt, killing all child processes..."].

Definition simultaneous_notice : list string :=
  [fstr ["INFO: ";
         fstr ["Running all actions within the action group simultaneously.";
               nl]]].

Definition dev_runner : ActionRunner.t :=
  {| ActionRunner.actions := [api_dev; web_dev];
     ActionRunner.can_run_simultaneously := true;
     ActionRunner.action_args := [] |}.

(** The state in which the interrupt reaches the two sample servers. *)
Definition interrupted_state : State :=
  fst (@ActionRunner.spawn_and_wait plain interrupted_os 5 dev_runner
         (printed initial_state simultaneous_notice)).

(** ** Reader threads

    [Thread.start()] runs the target on a thread of its own: what the
    target prints goes to the shared console, and what it raises, [exit(1)]
    included, ends that thread only. *)
Definition thread_run `{Externals} (th : Stream * string)
  : State * outcome unit :=
  ActionRunner._stream_output (fst th) (snd th) initial_state.

(** The line a reader prints for a line of output, and the message it logs
    when reading fails. *)
Definition emitted (prefix text : string) : string :=
  fstr ["["; prefix; "] "; ActionRunner.rstrip text].

Definition stream_error_msg (prefix : string) (e : exn) : string :=
  fstr ["["; prefix; "] Error reading stream: "; str_exn e].

(** The prefixes of the two readers of an action. *)
Definition stdout_prefix (a : Action.t) : string :=
  fstr [Action.module_name a; "."; Action.name a].

Definition stderr_prefix `{Externals} (a : Action.t) : string :=
  fstr [stdout_prefix a; " "; colored "ERR" "red"].

(** The same host, state and children with every pipe silent and healthy. *)
Definition quiet (st : Stream) : Stream :=
  {| stream_id := stream_id st; reads := [] |}.

Definition hush (p : Popen) : Popen :=
  {| pid := pid p; poll := poll p;
     proc_stdout := quiet (proc_stdout p);
     proc_stderr := quiet (proc_stderr p);
     on_terminate := on_terminate p; on_wait_timeout := on_wait_timeout p;
     on_kill := on_kill p; on_wait := on_wait p |}.

Definition hush_item (ap : Action.t * Popen) : Action.t * Popen :=
  (fst ap, hush (snd ap)).

Definition hush_os (os : OS) : OS :=
  {| subprocess_Popen := fun args cwd =>
       match subprocess_Popen os args cwd with
       | Ok p => Ok (hush p)
       | Raise e => Raise e
       end;
     subprocess_run := subprocess_run os;
     time_sleep := time_sleep os |}.

Definition hush_state (s : State) : State :=
  {| stdout := stdout s;
     processes := map hush_item (processes s);
     threads := map (fun th => (quiet (fst th), snd th)) (threads s);
     calls := calls s |}.

Definition map_outcome {A B} (f : A -> B) (o : outcome A) : outcome B :=
  match o with
  | Return a => Return (f a)
  | Raised e => Raised e
  | OutOfFuel => OutOfFuel
  end.

(** [m2] does on the hushed state what [m1] does on the state itself. *)
Definition commutes {A} (f : A -> A) (m1 m2 : M A) : Prop :=
  forall s, m2 (hush_state s)
            = (hush_state (fst (m1 s)), map_outcome f (snd (m1 s))).

(** A pipe that breaks after one line. *)
Definition broken_pipe : Stream :=
  pipe "stdout" [Line "listening on :8000  "; ReadFails (Exception "Broken pipe");
                 Line "never read"].

(** ** Working directories, as the specification words them *)

(** A path component as [Path] keeps it: not empty, not [.], no slash. *)
Fixpoint no_slash (w : string) : bool :=
  match w with
  | EmptyString => true
  | String c w' => negb (Ascii.eqb c slash) && no_slash w'
  end.

Definition part_ok (w : string) : bool :=
  negb (String.eqb w "") && negb (String.eqb w ".") && no_slash w.

Definition parts_ok (p : Path) : Prop := Forall (fun w => part_ok w = true) (parts p).

(** The directory of an action: its own, rebased onto the project root,
    or the module's when it configures none. *)
Definition action_dir (root module_dir : Path) (ra : RawAction) : Path :=
  match raw_work_dir ra with
  | Some w => if str_truthy w then rebase_path root w else module_dir
  | None => module_dir
  end.

(** A checkout at [/repo] in which only [/repo/api] exists. *)
Definition api_only_host : Host :=
  {| git_returncode := 0;
     git_toplevel := "/repo";
     path_exists := fun p =>
       if Path_eq_dec p (parse_path "/repo/api") then true else false |}.

(** A module whose only action asks for a directory that does not exist. *)
Definition raw_api : RawModule :=
  {| rawm_work_dir := "api";
     rawm_actions :=
       [("start", {| raw_cmd := "uvicorn app"; raw_args := Some false;
                     raw_watch_cmd := None; raw_work_dir := Some "missing";
                     raw_bg := Some false |})] |}.

(** A module whose own directory does not exist. *)
Definition raw_docs : RawModule :=
  {| rawm_work_dir := "docs"; rawm_actions := [] |}.

(** The directory a module ends up with: its configured directory rebased
    onto the project root, written out as a string and read back. *)
Definition module_dir (root : Path) (data : RawModule) : Path :=
  parse_path (str_path (rebase_path root (rawm_work_dir data))).

(** The action built from the raw action [ra] bound to the key [k] in the
    module called [module_name]. *)
Definition built_action (root : Path) (data : RawModule) (module_name : string)
    (kra : string * RawAction) : string * Action.t :=
  (fst kra,
   {| Action.name := fst kra;
      Action.module_name := module_name;
      Action.cmd := raw_cmd (snd kra);
      Action.args := raw_args (snd kra);
      Action.watch_cmd := raw_watch_cmd (snd kra);
      Action.work_dir := action_dir root (module_dir root data) (snd kra);
      Action.bg := raw_bg (snd kra) |}).

Definition built_module (root : Path) (module_name : string) (data : RawModule)
  : Mod.t :=
  {| Mod.name := module_name;
     Mod.work_dir := module_dir root data;
     Mod.actions := map (built_action root data module_name) (rawm_actions data) |}.

(** A directory that is not a git checkout. *)
Definition outside_git : Host :=
  {| git_returncode := 128; git_toplevel := "";
     path_exists := fun _ => true |}.

(** Every module and action carries the key it is bound to. *)
Definition named_by_keys (config : BPMConfig.t) : Prop :=
  forall mk m, In (mk, m) (BPMConfig.modules config) ->
    Mod.name m = mk /\
    forall k a, In (k, a) (Mod.actions m) ->
      Action.name a = k /\ Action.module_name a = mk.

Definition built_config (root : Path) (data : sdict RawModule) : BPMConfig.t :=
  {| BPMConfig.modules :=
       map (fun km => (fst km, built_module root (fst km) (snd km))) data |}.

(** * Properties *)

(** ** Dictionaries *)

Section DictFacts.
Context {V : Type}.
Implicit Types (d : sdict V) (k : string) (v : V).

Lemma sget_sset_same d k v : sget k (sset k v d) = Some v.
Proof.
  induction d as [|[k' v'] d IH]; cbn.
  - destruct (string_dec k k); congruence.
  - destruct (string_dec k k') as [->|Hne]; cbn.
    + destruct (string_dec k' k'); congruence.
    + destruct (string_dec k k'); [congruence | exact IH].
Qed.

Lemma sget_sset_other d k k' v : k <> k' -> sget k (sset k' v d) = sget k d.
Proof.
  intros Hne. induction d as [|[k0 v0] d IH]; cbn.
  - destruct (string_dec k k'); congruence.
  - destruct (string_dec k' k0) as [->|Hne0]; cbn.
    + destruct (string_dec k k0); congruence.
    + destruct (string_dec k k0); [reflexivity | exact IH].
Qed.

Lemma sget_None_keys d k : sget k d = None <-> ~ In k (dict_keys d).
Proof.
  induction d as [|[k' v'] d IH]; cbn.
  - tauto.
  - destruct (string_dec k k') as [->|Hne].
    + split; [discriminate | intros Hn; exfalso; apply Hn; now left].
    + rewrite IH. split.
      * intros Hn [Heq|Hin]; [congruence | tauto].
      * intros Hn Hin. apply Hn. now right.
Qed.

Lemma sset_fresh d k v : sget k d = None -> sset k v d = d ++ [(k, v)].
Proof.
  induction d as [|[k' v'] d IH]; cbn; [reflexivity|].
  destruct (string_dec k k'); [discriminate|].
  intros Hn. now rewrite (IH Hn).
Qed.

Lemma keys_sset_bound d k v v0 :
  sget k d = Some v0 -> dict_keys (sset k v d) = dict_keys d.
Proof.
  induction d as [|[k' v'] d IH]; cbn; [discriminate|].
  destruct (string_dec k k'); cbn; [reflexivity|].
  intros Hs. f_equal. exact (IH Hs).
Qed.

Lemma wf_sset d k v : dict_wf d -> dict_wf (sset k v d).
Proof.
  unfold dict_wf. intros Hwf. destruct (sget k d) as [v0|] eqn:Hk.
  - now rewrite (keys_sset_bound _ _ _ _ Hk).
  - rewrite (sset_fresh _ _ _ Hk). unfold dict_keys. rewrite map_app. cbn.
    apply NoDup_app; [exact Hwf | constructor; [intros [] | constructor] |].
    intros x Hx [<-|[]]. now apply sget_None_keys in Hk.
Qed.

Lemma smem_keys d k : smem k d = true <-> In k (dict_keys d).
Proof.
  unfold smem, dict_mem. fold (@sget V).
  destruct (sget k d) eqn:Hk.
  - split; [intros _|reflexivity].
    destruct (in_dec string_dec k (dict_keys d)) as [Hin|Hn]; [exact Hin|].
    apply sget_None_keys in Hn. congruence.
  - split; [discriminate|]. intros Hin. apply sget_None_keys in Hk. tauto.
Qed.

(** A comprehension over items with distinct keys yields those items. *)
Lemma dict_of_items_wf_gen (items acc : sdict V) :
  dict_wf (acc ++ items) ->
  fold_left (fun d kv => sset (fst kv) (snd kv) d) items acc = acc ++ items.
Proof.
  revert acc. induction items as [|[k v] items IH]; intros acc Hwf; cbn.
  - now rewrite app_nil_r.
  - assert (Hk : sget k acc = None).
    { apply sget_None_keys. unfold dict_wf, dict_keys in Hwf.
      rewrite map_app in Hwf. cbn in Hwf.
      apply NoDup_remove_2 in Hwf. intros Hin. apply Hwf.
      apply in_or_app. now left. }
    rewrite (sset_fresh _ _ _ Hk).
    rewrite IH; rewrite <- app_assoc; [reflexivity | exact Hwf].
Qed.

Lemma dict_of_items_wf (items : sdict V) :
  dict_wf items -> dict_of_items string_dec items = items.
Proof. intros Hwf. apply (dict_of_items_wf_gen items []). exact Hwf. Qed.

Lemma wf_filter (P : string * V -> bool) d : dict_wf d -> dict_wf (filter P d).
Proof.
  unfold dict_wf, dict_keys. induction d as [|[k v] d IH]; cbn; intros Hwf.
  - constructor.
  - inversion Hwf as [|? ? Hn Hd]; subst.
    destruct (P (k, v)); cbn; [constructor|]; auto.
    intros Hin. apply Hn. apply in_map_iff in Hin as [[k' v'] [Heq Hin]].
    cbn in Heq; subst. apply filter_In in Hin as [Hin _].
    apply in_map_iff. now exists (k, v').
Qed.

Lemma sget_filter (P : string * V -> bool) d k :
  dict_wf d ->
  sget k (filter P d) =
  match sget k d with
  | Some v => if P (k, v) then Some v else None
  | None => None
  end.
Proof.
  unfold dict_wf, dict_keys. induction d as [|[k' v'] d IH]; cbn; intros Hwf.
  - reflexivity.
  - inversion Hwf as [|? ? Hn Hd]; subst.
    destruct (string_dec k k') as [->|Hne].
    + destruct (P (k', v')) eqn:HP; cbn.
      * destruct (string_dec k' k'); congruence.
      * rewrite (IH Hd).
        assert (Hk : sget k' d = None) by now apply sget_None_keys.
        now rewrite Hk.
    + destruct (P (k', v')); cbn; [|now apply IH].
      destruct (string_dec k k'); [congruence | now apply IH].
Qed.
End DictFacts.

(** ** The group resolver *)

(** [represents cmds f]: the mapping [cmds] binds every name [n] with a
    non-empty [f n] to [f n], and no other name. *)
Definition represents (cmds : sdict (list Action.t))
    (f : string -> list Action.t) : Prop :=
  dict_wf cmds /\ forall n, sget n cmds = entry_of (f n).

Lemma entry_of_snoc (l : list Action.t) (a : Action.t) :
  entry_of (l ++ [a]) = Some (l ++ [a]).
Proof. destruct l; reflexivity. Qed.

Lemma add_action_represents cmds f k a :
  represents cmds f ->
  represents (BPMConfig.add_action cmds (k, a))
             (fun n => if string_dec n k then f n ++ [a] else f n).
Proof.
  intros [Hwf Hget]. unfold BPMConfig.add_action.
  pose proof (Hget k) as Hk.
  destruct (f k) as [|x l] eqn:Hfk; cbn in Hk; rewrite Hk; cbn.
  - rewrite sget_sset_same. split.
    + now do 2 apply wf_sset.
    + intros n. destruct (string_dec n k) as [->|Hne].
      * now rewrite sget_sset_same, Hfk.
      * now rewrite !sget_sset_other, Hget by assumption.
  - rewrite Hk. split.
    + now apply wf_sset.
    + intros n. destruct (string_dec n k) as [->|Hne].
      * now rewrite sget_sset_same, Hfk.
      * now rewrite sget_sset_other, Hget by assumption.
Qed.

Lemma represents_ext cmds f g :
  (forall n, f n = g n) -> represents cmds f -> represents cmds g.
Proof.
  intros Hfg [Hwf Hget]. split; [exact Hwf|].
  intros n. now rewrite <- Hfg.
Qed.

(** The actions that a list of items contributes under the name [n]. *)
Definition items_named (n : string) (items : list (string * Action.t))
  : list Action.t :=
  map snd (filter (fun kv => if string_dec n (fst kv) then true else false) items).

Lemma fold_add_action_represents items : forall cmds f,
  represents cmds f ->
  represents (fold_left BPMConfig.add_action items cmds)
             (fun n => f n ++ items_named n items).
Proof.
  induction items as [|[k a] items IH]; intros cmds f Hrep; cbn.
  - eapply represents_ext; [|exact Hrep].
    intros n. unfold items_named. cbn. now rewrite app_nil_r.
  - eapply represents_ext; [|apply IH, add_action_represents, Hrep].
    intros n. unfold items_named. cbn.
    destruct (string_dec n k); cbn; [now rewrite <- app_assoc | reflexivity].
Qed.

Lemma items_named_wf n (items : sdict Action.t) :
  dict_wf items ->
  items_named n items =
  match sget n items with Some a => [a] | None => [] end.
Proof.
  unfold dict_wf, dict_keys, items_named.
  induction items as [|[k a] items IH]; cbn; intros Hwf; [reflexivity|].
  inversion Hwf as [|? ? Hn Hd]; subst.
  destruct (string_dec n k) as [->|Hne]; cbn.
  - f_equal. rewrite (IH Hd).
    assert (Hk : sget k items = None) by now apply sget_None_keys.
    now rewrite Hk.
  - now apply IH.
Qed.

Lemma fold_modules_represents ms : forall cmds f,
  Forall (fun m => dict_wf (Mod.actions m)) ms ->
  represents cmds f ->
  represents
    (fold_left (fun cmds m =>
                  fold_left BPMConfig.add_action (dict_items (Mod.actions m)) cmds)
               ms cmds)
    (fun n => f n ++ flat_map (named_in n) ms).
Proof.
  induction ms as [|m ms IH]; intros cmds f Hall Hrep; cbn.
  - eapply represents_ext; [|exact Hrep]. intros n. now rewrite app_nil_r.
  - inversion Hall as [|? ? Hm Hms]; subst.
    eapply represents_ext;
      [|apply IH; [exact Hms | apply fold_add_action_represents, Hrep]].
    intros n. cbn. rewrite <- app_assoc. f_equal. f_equal.
    unfold named_in, dict_items. now apply items_named_wf.
Qed.

Lemma all_actions_represents config :
  BPMConfig.wf config ->
  represents (BPMConfig.all_actions config) (fun n => actions_named n config).
Proof.
  intros [_ Hall]. unfold BPMConfig.all_actions, actions_named.
  apply (fold_modules_represents _ [] (fun _ => []) Hall).
  split; [constructor | reflexivity].
Qed.

Lemma length_actions_named n config :
  List.length (actions_named n config) = modules_defining n config.
Proof.
  unfold actions_named, modules_defining.
  induction (dict_values (BPMConfig.modules config)) as [|m ms IH]; cbn.
  - reflexivity.
  - rewrite length_app, IH. unfold named_in, smem, dict_mem. fold (@sget Action.t).
    destruct (sget n (Mod.actions m)); reflexivity.
Qed.

Lemma action_groups_filter config :
  BPMConfig.wf config ->
  BPMConfig.action_groups config =
  filter (fun nd => (2 <=? List.length (snd nd))%nat)
         (BPMConfig.all_actions config).
Proof.
  intros Hwf. unfold BPMConfig.action_groups, dict_items.
  rewrite dict_of_items_wf.
  - apply filter_ext. intros [n d]. reflexivity.
  - apply wf_filter. now destruct (all_actions_represents config Hwf).
Qed.

Lemma entry_of_Some l l' : entry_of l = Some l' -> l' = l /\ l <> [].
Proof. destruct l; cbn; [discriminate|]. intros [= <-]. split; congruence. Qed.

(** C2.  The flat mapping binds every action name to the actions of that
    name, one per defining module and in module declaration order, so the
    length of an entry is the number of modules defining the name; the
    action groups are exactly the entries with at least two actions. *)
Theorem all_actions_and_action_groups (config : BPMConfig.t) :
  BPMConfig.wf config ->
  (forall n, sget n (BPMConfig.all_actions config)
             = entry_of (actions_named n config)) /\
  (forall n l, sget n (BPMConfig.all_actions config) = Some l ->
               l = actions_named n config /\
               List.length l = modules_defining n config) /\
  BPMConfig.action_groups config
    = filter (fun nd => (2 <=? List.length (snd nd))%nat)
             (BPMConfig.all_actions config) /\
  (forall n l, sget n (BPMConfig.action_groups config) = Some l <->
               sget n (BPMConfig.all_actions config) = Some l /\
               2 <= List.length l).
Proof.
  intros Hwf. destruct (all_actions_represents config Hwf) as [Hd Hget].
  split; [exact Hget|]. split; [|split].
  - intros n l Hl. rewrite Hget in Hl. apply entry_of_Some in Hl as [-> _].
    split; [reflexivity | apply length_actions_named].
  - now apply action_groups_filter.
  - intros n l. rewrite (action_groups_filter config Hwf).
    rewrite (sget_filter _ _ _ Hd).
    destruct (sget n (BPMConfig.all_actions config)) as [l0|]; cbn [snd].
    + destruct (Nat.leb_spec 2 (List.length l0)).
      * split; [intros [= <-]; now split | intros [[= <-] _]; reflexivity].
      * split; [discriminate | intros [[= <-] Hle]; lia].
    + split; [discriminate | intros [[=] _]].
Qed.

(** ** A witness for the group resolver *)

Ltac solve_NoDup :=
  repeat (constructor; [cbn; intuition discriminate|]); constructor.

Lemma sample_config_wf : BPMConfig.wf sample_config.
Proof.
  split; [unfold dict_wf; cbn; solve_NoDup|].
  cbn. repeat (apply Forall_cons; [unfold dict_wf; cbn; solve_NoDup|]).
  apply Forall_nil.
Qed.

Lemma all_actions_and_action_groups_witness :
  BPMConfig.wf sample_config /\
  sget "start" (BPMConfig.all_actions sample_config)
    = Some [api_start; web_start] /\
  dict_keys (BPMConfig.action_groups sample_config) = ["start"; "dev"].
Proof.
  split; [exact sample_config_wf|].
  destruct (all_actions_and_action_groups sample_config sample_config_wf)
    as (Hget & _ & Hgroups & _).
  split; [rewrite Hget; reflexivity | rewrite Hgroups; reflexivity].
Defined.

(** ** The invocation resolver *)

Section Resolver.
Context `{Externals}.

Lemma print_eq line s : print line s = (printed s [line], Return tt).
Proof. reflexivity. Qed.

Lemma error_exiting {A} msg (k : unit -> M A) s :
  bind (logger.error msg true) k s = fails_with msg s.
Proof. reflexivity. Qed.

Lemma getitem_Some {V} k (d : sdict V) v s :
  sget k d = Some v -> getitem k d s = (s, Return v).
Proof. unfold getitem. now intros ->. Qed.

Lemma smem_sget {V} k (d : sdict V) :
  smem k d = match sget k d with Some _ => true | None => false end.
Proof. reflexivity. Qed.

Lemma module_branch_eq config ns m s :
  Args.module_branch config ns m s =
  match sget m (BPMConfig.modules config) with
  | None => fails_with (Args.unknown_module_msg config m) s
  | Some md =>
      match sget (ns_action ns) (Mod.actions md) with
      | None => fails_with (Args.unknown_action_msg md m (ns_action ns)) s
      | Some a =>
          if nonempty (ns_args ns) && negb (truthy (Action.args a))
          then fails_with (Args.args_not_allowed_msg m (ns_action ns) (ns_args ns)) s
          else (s, Return {| Args.module := Some md; Args.actions := [a];
                             Args.args := ns_args ns |})
      end
  end.
Proof.
  unfold Args.module_branch. rewrite smem_sget.
  destruct (sget m (BPMConfig.modules config)) as [md|] eqn:Hm; cbn [negb when].
  - unfold bind at 1. cbn [ret]. unfold bind at 1.
    rewrite (getitem_Some _ _ _ _ Hm). rewrite smem_sget.
    destruct (sget (ns_action ns) (Mod.actions md)) as [a|] eqn:Ha; cbn [negb when].
    + unfold bind at 1. cbn [ret]. unfold bind at 1.
      rewrite (getitem_Some _ _ _ _ Ha).
      destruct (nonempty (ns_args ns) && negb (truthy (Action.args a))); cbn [when].
      * apply error_exiting.
      * reflexivity.
    + apply error_exiting.
  - apply error_exiting.
Qed.

Lemma accepting_eq acts :
  map (fun a => if truthy (Action.args a) then true else false) acts
  = accepting acts.
Proof.
  unfold accepting. apply map_ext. intros a. now destruct (truthy _).
Qed.

Lemma group_branch_eq config ns s :
  Args.group_branch config ns s =
  match sget (ns_action ns) (BPMConfig.action_groups config) with
  | None => fails_with (Args.not_a_group_msg (ns_action ns)) s
  | Some acts =>
      let invocation := {| Args.module := None; Args.actions := acts;
                           Args.args := ns_args ns |} in
      if nonempty (ns_args ns) then
        if negb (any (accepting acts)) then
          fails_with (Args.group_args_not_allowed_msg (ns_action ns)) s
        else if negb (all (accepting acts)) then
          (printed s [logger.warn_line
                        (Args.partial_args_msg (ns_action ns)
                           (sum (accepting acts)) (List.length acts)
                           (List.length acts - sum (accepting acts)))],
           Return invocation)
        else (s, Return invocation)
      else (s, Return invocation)
  end.
Proof.
  unfold Args.group_branch. cbv zeta. rewrite smem_sget.
  destruct (sget (ns_action ns) (BPMConfig.action_groups config))
    as [acts|] eqn:Hg; cbn [negb when].
  - unfold bind at 1. cbn [ret]. unfold bind at 1.
    rewrite (getitem_Some _ _ _ _ Hg). rewrite accepting_eq.
    destruct (nonempty (ns_args ns)); cbn [when]; [|reflexivity].
    destruct (any (accepting acts)); cbn [negb]; [|apply error_exiting].
    destruct (all (accepting acts)); cbn [negb]; reflexivity.
  - apply error_exiting.
Qed.

Lemma init_qualified config ns m :
  ns_module ns = Some m -> str_truthy m = true ->
  Args.__init__ config ns = Args.module_branch config ns m.
Proof. unfold Args.__init__. now intros -> ->. Qed.

Lemma init_unqualified config ns :
  unqualified ns -> Args.__init__ config ns = Args.group_branch config ns.
Proof. unfold Args.__init__. now intros [-> | ->]. Qed.

(** Resolution only prints: it spawns nothing and touches no process. *)
Lemma init_only_prints config ns s s' o :
  Args.__init__ config ns s = (s', o) -> exists lines, s' = printed s lines.
Proof.
  assert (Hs : s = printed s []).
  { destruct s. unfold printed. cbn. now rewrite app_nil_r. }
  unfold Args.__init__.
  destruct (ns_module ns) as [m|]; [destruct (str_truthy m)|];
    rewrite ?module_branch_eq, ?group_branch_eq; unfold fails_with;
    repeat match goal with
           | |- context [match ?x with _ => _ end] => destruct x
           end;
    intros [= <- <-]; eauto.
Qed.

(** When resolution raises, [main] ends there and nothing has been spawned. *)
Lemma main_stops_at_resolution config ns os fuel s s' e :
  Args.__init__ config ns s = (s', Raised e) ->
  main config ns os fuel s = (s', Raised e) /\ calls s' = calls s /\
  processes s' = processes s /\ threads s' = threads s.
Proof.
  intros Hinit. split.
  - unfold main, bind. now rewrite Hinit.
  - apply init_only_prints in Hinit as [lines ->]. now cbn.
Qed.

Lemma sum_le_length l : sum l <= List.length l.
Proof. unfold sum. apply filter_length_le. Qed.

Lemma any_false_sum l : any l = false <-> sum l = 0.
Proof.
  unfold any, sum. induction l as [|[] l IH]; cbn; try tauto.
  split; [discriminate | lia].
Qed.

Lemma all_true_sum l : all l = true <-> sum l = List.length l.
Proof.
  unfold all. induction l as [|[] l IH]; cbn.
  - tauto.
  - fold (sum l). unfold sum in *. cbn. rewrite IH. lia.
  - pose proof (sum_le_length l) as Hle. unfold sum in *.
    split; [discriminate | lia].
Qed.

(** C4, amended.  With a module name that is given and not empty,
    resolution fails with the unknown-module error when the name is not in
    the registry, with the unknown-action error when the module lacks the
    action, and with the arguments-not-allowed error when arguments are
    given and the action does not accept them; every failure ends [main]
    with exit code 1 before any call to the host; a successful resolution
    holds exactly one action. *)
Theorem module_qualified_resolution config ns m os fuel s :
  ns_module ns = Some m ->
  str_truthy m = true ->
  (sget m (BPMConfig.modules config) = None ->
   Args.__init__ config ns s = fails_with (Args.unknown_module_msg config m) s) /\
  (forall md,
     sget m (BPMConfig.modules config) = Some md ->
     sget (ns_action ns) (Mod.actions md) = None ->
     Args.__init__ config ns s
     = fails_with (Args.unknown_action_msg md m (ns_action ns)) s) /\
  (forall md a,
     sget m (BPMConfig.modules config) = Some md ->
     sget (ns_action ns) (Mod.actions md) = Some a ->
     ns_args ns <> [] ->
     truthy (Action.args a) = false ->
     Args.__init__ config ns s
     = fails_with (Args.args_not_allowed_msg m (ns_action ns) (ns_args ns)) s) /\
  (forall s' e,
     Args.__init__ config ns s = (s', Raised e) ->
     e = SystemExit 1 /\
     main config ns os fuel s = (s', Raised (SystemExit 1)) /\
     calls s' = calls s /\ processes s' = processes s /\
     threads s' = threads s) /\
  (forall s' invocation,
     Args.__init__ config ns s = (s', Return invocation) ->
     exists a, Args.actions invocation = [a]).
Proof.
  intros Hm Ht.
  assert (Hcases : forall s' o,
             Args.__init__ config ns s = (s', o) ->
             (o = Raised (SystemExit 1) \/
              exists invocation a,
                o = Return invocation /\ Args.actions invocation = [a])).
  { intros s' o. rewrite (init_qualified config ns m Hm Ht), module_branch_eq.
    unfold fails_with.
    repeat match goal with
           | |- context [match ?x with _ => _ end] => destruct x
           end; intros [= <- <-];
      solve [now left | right; do 2 eexists; split; reflexivity]. }
  split; [|split; [|split; [|split]]].
  - rewrite (init_qualified config ns m Hm Ht), module_branch_eq.
    now intros ->.
  - rewrite (init_qualified config ns m Hm Ht), module_branch_eq.
    now intros md -> ->.
  - rewrite (init_qualified config ns m Hm Ht), module_branch_eq.
    intros md a -> -> Hargs Hacc. rewrite Hacc.
    destruct (ns_args ns); [congruence | reflexivity].
  - intros s' e Hinit.
    destruct (Hcases _ _ Hinit) as [[= ->] | (inv & a & [=] & _)].
    split; [reflexivity|]. now apply main_stops_at_resolution.
  - intros s' invocation Hinit.
    destruct (Hcases _ _ Hinit) as [[=] | (inv & a & [= ->] & Ha)]. eauto.
Qed.

(** C5.  Without a module qualifier, for a group and non-empty extra
    arguments: resolution fails with the arguments-not-allowed error when
    no action of the group accepts them; when some but not all do, it
    succeeds with the whole group and prints one warning that reports how
    many of the N actions accept them. *)
Theorem group_resolution_with_args config ns acts s :
  unqualified ns ->
  sget (ns_action ns) (BPMConfig.action_groups config) = Some acts ->
  ns_args ns <> [] ->
  (sum (accepting acts) = 0 ->
   Args.__init__ config ns s
   = fails_with (Args.group_args_not_allowed_msg (ns_action ns)) s) /\
  (0 < sum (accepting acts) < List.length acts ->
   Args.__init__ config ns s
   = (printed s [logger.warn_line
                   (Args.partial_args_msg (ns_action ns)
                      (sum (accepting acts)) (List.length acts)
                      (List.length acts - sum (accepting acts)))],
      Return {| Args.module := None; Args.actions := acts;
                Args.args := ns_args ns |})).
Proof.
  intros Hu Hg Hargs. rewrite (init_unqualified config ns Hu), group_branch_eq, Hg.
  cbv zeta.
  assert (Hne : nonempty (ns_args ns) = true)
    by (destruct (ns_args ns); [congruence | reflexivity]).
  rewrite Hne. split.
  - intros Hnone. apply any_false_sum in Hnone. now rewrite Hnone.
  - intros [Hsome Hnotall].
    destruct (any (accepting acts)) eqn:Hany.
    + destruct (all (accepting acts)) eqn:Hall; [|reflexivity].
      apply all_true_sum in Hall.
      assert (List.length (accepting acts) = List.length acts)
        by apply length_map.
      lia.
    + apply any_false_sum in Hany. lia.
Qed.

(** C6.  When exactly one module defines the action name, the name is not
    a key of the action groups, and invoking it without a module qualifier
    fails with the not-a-group error: [main] exits with code 1 and no call
    to the host has been made. *)
Theorem single_module_action_is_not_a_group config ns os fuel s :
  BPMConfig.wf config ->
  modules_defining (ns_action ns) config = 1 ->
  unqualified ns ->
  sget (ns_action ns) (BPMConfig.action_groups config) = None /\
  Args.__init__ config ns s = fails_with (Args.not_a_group_msg (ns_action ns)) s /\
  main config ns os fuel s = fails_with (Args.not_a_group_msg (ns_action ns)) s /\
  calls (fst (main config ns os fuel s)) = calls s /\
  processes (fst (main config ns os fuel s)) = processes s.
Proof.
  intros Hwf Hone Hu.
  assert (Hg : sget (ns_action ns) (BPMConfig.action_groups config) = None).
  { destruct (all_actions_represents config Hwf) as [Hd Hget].
    rewrite (action_groups_filter config Hwf), (sget_filter _ _ _ Hd), Hget.
    destruct (entry_of (actions_named (ns_action ns) config)) as [l|] eqn:He;
      [|reflexivity].
    apply entry_of_Some in He as [-> _]. cbn [snd].
    now rewrite length_actions_named, Hone. }
  assert (Hinit : Args.__init__ config ns s
                  = fails_with (Args.not_a_group_msg (ns_action ns)) s).
  { now rewrite (init_unqualified config ns Hu), group_branch_eq, Hg. }
  destruct (main_stops_at_resolution config ns os fuel s _ _ Hinit)
    as (Hmain & Hcalls & Hprocs & _).
  repeat split; try assumption; now rewrite Hmain.
Qed.
End Resolver.

(** C4, as stated, fails: the module qualifier [-m ''] is given and names
    no module of the sample project, yet resolution reports no unknown
    module; it succeeds with the two actions of the group [start]. *)
Lemma empty_module_qualifier_counterexample :
  ns_module empty_qualifier_request = Some "" /\
  sget "" (BPMConfig.modules sample_config) = None /\
  @Args.__init__ plain sample_config empty_qualifier_request initial_state
  = (initial_state,
     Return {| Args.module := None; Args.actions := [api_start; web_start];
               Args.args := [] |}).
Proof. repeat split. Qed.

Lemma module_qualified_resolution_witness :
  @Args.__init__ plain sample_config deploy_build_request initial_state
  = @fails_with plain _ (@Args.unknown_module_msg sample_config "deploy")
                initial_state.
Proof.
  exact (proj1 (@module_qualified_resolution plain sample_config
                  deploy_build_request "deploy" barren_os 0 initial_state
                  eq_refl eq_refl) eq_refl).
Defined.

Lemma group_resolution_with_args_witness :
  @Args.__init__ plain sample_config start_verbose_request initial_state
  = (printed initial_state
       ["WARN: Additional arguments were given to the 'start' action group, but only 1 of 2 actions accept them. The arguments will be ignored for the other action."],
     Return {| Args.module := None; Args.actions := [api_start; web_start];
               Args.args := ["--verbose"] |}).
Proof.
  refine (proj2 (@group_resolution_with_args plain sample_config
                   start_verbose_request [api_start; web_start] initial_state
                   (or_introl eq_refl) eq_refl _) _).
  - discriminate.
  - cbn. lia.
Defined.

Lemma single_module_action_is_not_a_group_witness :
  @main plain sample_config build_request barren_os 0 initial_state
  = @fails_with plain _ (Args.not_a_group_msg "build") initial_state.
Proof.
  exact (proj1 (proj2 (proj2 (@single_module_action_is_not_a_group plain
           sample_config build_request barren_os 0 initial_state
           sample_config_wf eq_refl (or_introl eq_refl))))).
Defined.

(** ** Framing the orchestrator *)

Section Preserves.
Variable R : State -> State -> Prop.
Hypothesis R_refl : forall s, R s s.
Hypothesis R_trans : forall s1 s2 s3, R s1 s2 -> R s2 s3 -> R s1 s3.

Lemma preserves_ret {A} (a : A) : preserves R (ret a).
Proof. intros s. apply R_refl. Qed.

Lemma preserves_raise {A} e : preserves R (@raise A e).
Proof. intros s. apply R_refl. Qed.

Lemma preserves_lift {A} (r : result A) : preserves R (lift r).
Proof. destruct r; [apply preserves_ret | apply preserves_raise]. Qed.

Lemma preserves_bind {A B} (m : M A) (k : A -> M B) :
  preserves R m -> (forall a, preserves R (k a)) -> preserves R (bind m k).
Proof.
  intros Hm Hk s. unfold bind. specialize (Hm s).
  destruct (m s) as [s' [a|e|]]; cbn in *; [|assumption..].
  eapply R_trans; [exact Hm | apply Hk].
Qed.

Lemma preserves_when c m : preserves R m -> preserves R (when c m).
Proof. destruct c; [trivial | intros _; apply preserves_ret]. Qed.

Lemma preserves_for_each {A} (l : list A) body :
  (forall x, preserves R (body x)) -> preserves R (for_each l body).
Proof.
  intros Hbody. induction l as [|x l IH]; cbn.
  - apply preserves_ret.
  - apply preserves_bind; auto.
Qed.

Lemma preserves_try_except {A} (body : M A) catches handler :
  preserves R body -> (forall e, preserves R (handler e)) ->
  preserves R (try_except body catches handler).
Proof.
  intros Hb Hh s. unfold try_except. specialize (Hb s).
  destruct (body s) as [s' [a|e|]]; cbn in *; try assumption.
  destruct (catches e); [|assumption].
  eapply R_trans; [exact Hb | apply Hh].
Qed.

Lemma preserves_try_finally {A} (body : M A) final :
  preserves R body -> preserves R final ->
  preserves R (try_finally body final).
Proof.
  intros Hb Hf s. unfold try_finally. specialize (Hb s).
  destruct (body s) as [s' o]; cbn in *. specialize (Hf s').
  destruct o; [| |assumption];
    destruct (final s') as [s'' [[]|e'|]]; cbn in *;
    eapply R_trans; eassumption.
Qed.

Lemma preserves_may_raise e : preserves R (may_raise e).
Proof. destruct e; [apply preserves_raise | apply preserves_ret]. Qed.
End Preserves.

Lemma calls_extend_refl P s : calls_extend P s s.
Proof. exists []. now rewrite app_nil_r. Qed.

Lemma calls_extend_trans P s1 s2 s3 :
  calls_extend P s1 s2 -> calls_extend P s2 s3 -> calls_extend P s1 s3.
Proof.
  intros (l1 & H1 & P1) (l2 & H2 & P2). exists (l1 ++ l2). split.
  - now rewrite H2, H1, app_assoc.
  - now rewrite forallb_app, P1, P2.
Qed.

Lemma same_children_refl s : same_children s s.
Proof. now split. Qed.

Lemma same_children_trans s1 s2 s3 :
  same_children s1 s2 -> same_children s2 s3 -> same_children s1 s3.
Proof. intros [H1 H2] [H3 H4]. split; congruence. Qed.

Ltac frame_with refl trans prim :=
  repeat first
    [ apply (preserves_bind _ trans)
    | apply (preserves_ret _ refl)
    | apply (preserves_raise _ refl)
    | apply (preserves_lift _ refl)
    | apply (preserves_when _ refl)
    | apply (preserves_for_each _ refl trans)
    | apply (preserves_try_except _ trans)
    | apply (preserves_try_finally _ trans)
    | apply (preserves_may_raise _ refl)
    | match goal with |- forall _, _ => intro end
    | match goal with |- preserves _ (match ?x with _ => _ end) => destruct x end
    | match goal with |- preserves _ (if ?x then _ else _) => destruct x end
    | prim ].

Section OrchestratorFrames.
Context `{Externals}.

Lemma print_same_children line : preserves same_children (print line).
Proof. intros s. now split. Qed.

Lemma record_call_same_children c : preserves same_children (record_call c).
Proof. intros s. now split. Qed.

Lemma calls_extend_same P s s' : calls s' = calls s -> calls_extend P s s'.
Proof. intros Heq. exists []. now rewrite app_nil_r. Qed.

Lemma print_calls P line : preserves (calls_extend P) (print line).
Proof. intros s. now apply calls_extend_same. Qed.

Lemma record_call_calls (P : os_call -> bool) c :
  P c = true -> preserves (calls_extend P) (record_call c).
Proof. intros HP s. exists [c]. cbn. now rewrite HP. Qed.

Lemma get_processes_calls P : preserves (calls_extend P) get_processes.
Proof. intros s. apply calls_extend_refl. Qed.

Lemma set_processes_calls P d : preserves (calls_extend P) (set_processes d).
Proof. intros s. now apply calls_extend_same. Qed.

Lemma start_thread_calls P st prefix :
  preserves (calls_extend P) (start_thread st prefix).
Proof. intros s. now apply calls_extend_same. Qed.

Ltac frame_children :=
  frame_with same_children_refl same_children_trans
    ltac:(first [apply print_same_children | apply record_call_same_children]).

Ltac frame_calls P :=
  frame_with (calls_extend_refl P) (calls_extend_trans P)
    ltac:(first [ apply print_calls | apply get_processes_calls
                | apply set_processes_calls | apply start_thread_calls
                | apply record_call_calls; reflexivity ]).

(** Sequential mode never touches the live set or starts a reader. *)
Lemma run_in_series_same_children os self :
  preserves same_children (ActionRunner.run_in_series os self).
Proof.
  unfold ActionRunner.run_in_series, ActionRunner.run_one,
    ActionRunner.command_of, logger.info, logger.error, exit.
  frame_children.
Qed.

(** Sequential mode launches through [subprocess.run] only. *)
Lemma run_in_series_calls os self :
  preserves (calls_extend is_CallRun) (ActionRunner.run_in_series os self).
Proof.
  unfold ActionRunner.run_in_series, ActionRunner.run_one,
    ActionRunner.command_of, logger.info, logger.error, exit.
  frame_calls is_CallRun.
Qed.

Lemma wait_loop_calls P os fuel : forall round,
  preserves (calls_extend P) (ActionRunner.wait_loop os fuel round).
Proof.
  induction fuel as [|fuel IH]; intros round; cbn [ActionRunner.wait_loop];
    unfold ActionRunner.poll_all, logger.info.
  - frame_calls P.
  - frame_calls P. apply IH.
Qed.

(** Concurrent mode never calls [subprocess.run]. *)
Lemma run_simultaneously_calls os fuel self :
  preserves (calls_extend (fun c => negb (is_CallRun c)))
            (ActionRunner.run_simultaneously os fuel self).
Proof.
  unfold ActionRunner.run_simultaneously, ActionRunner.spawn_and_wait,
    ActionRunner.on_interrupt, ActionRunner._kill_all_processes,
    ActionRunner.kill_one, ActionRunner.spawn, ActionRunner.command_of,
    logger.info, logger.warn, logger.error, exit.
  frame_calls (fun c => negb (is_CallRun c)).
  apply wait_loop_calls.
Qed.

(** ** Mode selection *)

Lemma all_fold_right l : all l = fold_right andb true l.
Proof. unfold all. induction l as [|b l IH]; cbn; [|rewrite IH]; reflexivity. Qed.

Lemma all_bg_true (acts : list Action.t) :
  all (map (fun a => truthy (Action.bg a)) acts) = true <->
  forall a, In a acts -> Action.bg a = Some true.
Proof.
  unfold all. rewrite forallb_forall. split.
  - intros Hall a Hin.
    specialize (Hall (truthy (Action.bg a)) (in_map _ _ _ Hin)).
    now destruct (Action.bg a) as [[]|].
  - intros Hall b Hin. apply in_map_iff in Hin as (a & <- & Hin).
    now rewrite (Hall a Hin).
Qed.

(** C3.  The mode is the conjunction of the actions' [bg] flags:
    [can_run_simultaneously] holds exactly when every action's flag is
    true, and then [run] is the concurrent branch, which never calls
    [subprocess.run]; as soon as one action's flag is not true, [run] is the
    sequential branch for the whole invocation: every launch goes through
    [subprocess.run], and no child is put in the live set. *)
Theorem mode_selection (args : Args.t) (os : OS) (fuel : nat) (s : State) :
  let runner := ActionRunner.__init__ args in
  ActionRunner.can_run_simultaneously runner
  = fold_right andb true
      (map (fun a => truthy (Action.bg a)) (Args.actions args)) /\
  (ActionRunner.can_run_simultaneously runner = true <->
   forall a, In a (Args.actions args) -> Action.bg a = Some true) /\
  ((forall a, In a (Args.actions args) -> Action.bg a = Some true) ->
   ActionRunner.run os fuel runner
   = ActionRunner.run_simultaneously os fuel runner /\
   calls_extend (fun c => negb (is_CallRun c)) s
     (fst (ActionRunner.run os fuel runner s))) /\
  (forall a, In a (Args.actions args) -> Action.bg a <> Some true ->
   ActionRunner.run os fuel runner = ActionRunner.run_in_series os runner /\
   same_children s (fst (ActionRunner.run os fuel runner s)) /\
   calls_extend is_CallRun s (fst (ActionRunner.run os fuel runner s))).
Proof.
  cbv zeta. cbn [ActionRunner.__init__ ActionRunner.can_run_simultaneously].
  split; [apply all_fold_right|]. split; [apply all_bg_true|]. split.
  - intros Hall. apply all_bg_true in Hall.
    unfold ActionRunner.run.
    cbn [ActionRunner.__init__ ActionRunner.can_run_simultaneously].
    rewrite Hall. split; [reflexivity | apply run_simultaneously_calls].
  - intros a Hin Hbg.
    assert (Hnot : all (map (fun a => truthy (Action.bg a)) (Args.actions args))
                   = false).
    { destruct (all _) eqn:Hall; [|reflexivity].
      exfalso. apply Hbg. now apply (proj1 (all_bg_true _) Hall). }
    unfold ActionRunner.run.
    cbn [ActionRunner.__init__ ActionRunner.can_run_simultaneously].
    rewrite Hnot.
    split; [reflexivity|].
    split; [apply run_in_series_same_children | apply run_in_series_calls].
Qed.

(** ** Teardown *)

Lemma kill_one_eq a p s :
  no_second_interrupt p ->
  ActionRunner.kill_one (a, p) s
  = ({| stdout := stdout s ++ [teardown_report (a, p)];
        processes := processes s;
        threads := threads s;
        calls := calls s ++ teardown_calls p |}, Return tt).
Proof.
  unfold no_second_interrupt, teardown_report, teardown_failure, teardown_calls,
    ActionRunner.kill_one.
  cbn [fst snd]. intros Hexn.
  destruct (on_terminate p) as [e1|].
  { specialize (Hexn e1 eq_refl). destruct e1; try discriminate; reflexivity. }
  destruct (on_wait_timeout p) as [e2|].
  2:{ cbn. now rewrite <- !app_assoc. }
  destruct e2;
    try (specialize (Hexn _ eq_refl); try discriminate;
         cbn; now rewrite <- !app_assoc).
  destruct (on_kill p) as [e3|].
  { specialize (Hexn e3 eq_refl).
    destruct e3; try discriminate; cbn; now rewrite <- !app_assoc. }
  destruct (on_wait p) as [e4|].
  { specialize (Hexn e4 eq_refl).
    destruct e4; try discriminate; cbn; now rewrite <- !app_assoc. }
  cbn. now rewrite <- !app_assoc.
Qed.

Lemma for_each_kill_one items : forall s,
  Forall (fun ap => no_second_interrupt (snd ap)) items ->
  for_each items ActionRunner.kill_one s
  = ({| stdout := stdout s ++ map teardown_report items;
        processes := processes s;
        threads := threads s;
        calls := calls s ++ flat_map (fun ap => teardown_calls (snd ap)) items |},
     Return tt).
Proof.
  induction items as [|[a p] items IH]; intros s Hall; cbn [for_each].
  - cbn. rewrite !app_nil_r. now destruct s.
  - inversion Hall as [|? ? Hp Hrest]; subst.
    unfold bind. rewrite (kill_one_eq a p s Hp), (IH _ Hrest). cbn.
    now rewrite <- !app_assoc.
Qed.

Lemma kill_all_processes_eq s :
  Forall (fun ap => no_second_interrupt (snd ap)) (processes s) ->
  ActionRunner._kill_all_processes s = (torn_down s, Return tt).
Proof.
  intros Hall. unfold ActionRunner._kill_all_processes, bind, get_processes.
  unfold dict_items. now rewrite (for_each_kill_one _ s Hall).
Qed.

(** C10.  Teardown asks every process of the live set in turn to
    terminate, waits up to three seconds for it, and kills it and waits
    again if it is still alive; a failure on one process is reported by a
    line that does not exit, and the remaining processes are still torn
    down; afterwards the live set is empty.  When the concurrent branch is
    interrupted, this teardown runs and [run] exits with code 1. *)
Theorem graceful_teardown s1 :
  Forall (fun ap => no_second_interrupt (snd ap)) (processes s1) ->
  ActionRunner._kill_all_processes s1 = (torn_down s1, Return tt) /\
  processes (torn_down s1) = [] /\
  calls (torn_down s1)
  = calls s1 ++ flat_map (fun ap => teardown_calls (snd ap)) (processes s1) /\
  stdout (torn_down s1) = stdout s1 ++ map teardown_report (processes s1) /\
  (forall os fuel self s,
     ActionRunner.spawn_and_wait os fuel self (printed s simultaneous_notice)
     = (s1, Raised KeyboardInterrupt) ->
     ActionRunner.run_simultaneously os fuel self s
     = (torn_down (printed s1 interrupt_notice), Raised (SystemExit 1))).
Proof.
  intros Hall. split; [now apply kill_all_processes_eq|].
  split; [reflexivity|]. split; [reflexivity|]. split; [reflexivity|].
  intros os fuel self s Hbody.
  unfold ActionRunner.run_simultaneously, logger.info.
  unfold bind at 1. rewrite print_eq. fold simultaneous_notice.
  unfold try_except. rewrite Hbody. cbn [is_KeyboardInterrupt].
  unfold ActionRunner.on_interrupt, logger.warn.
  unfold bind at 1. rewrite print_eq.
  unfold bind at 1. rewrite print_eq.
  unfold bind at 1. rewrite kill_all_processes_eq by exact Hall.
  unfold exit, raise, torn_down, printed, interrupt_notice, logger.warn_line.
  cbn. now rewrite <- !app_assoc.
Qed.
End OrchestratorFrames.

Lemma graceful_teardown_witness :
  @ActionRunner.run_simultaneously plain interrupted_os 5 dev_runner initial_state
  = (@torn_down plain (printed interrupted_state (@interrupt_notice plain)),
     Raised (SystemExit 1)) /\
  calls (@torn_down plain (printed interrupted_state (@interrupt_notice plain)))
  = [CallPopen ["uvicorn"; "app"; "--reload"] (parse_path "/repo/api");
     CallPopen ["vite"] (parse_path "/repo/web");
     CallTerminate 101; CallWait 101 (Some 3%Z);
     CallTerminate 102; CallWait 102 (Some 3%Z); CallKill 102;
     CallWait 102 None].
Proof.
  assert (Hall : Forall (fun ap => no_second_interrupt (snd ap))
                        (processes interrupted_state)).
  { repeat (apply Forall_cons; [intros e; cbn; discriminate|]).
    apply Forall_nil. }
  split; [|reflexivity].
  exact (proj2 (proj2 (proj2 (proj2
           (@graceful_teardown plain interrupted_state Hall))))
           interrupted_os 5 dev_runner initial_state eq_refl).
Defined.

(** ** Two defects of the orchestrator *)

(** C1 fails on the code.  [run] appends the extra arguments to the command
    of every action, whatever its [args] flag: in the sample project the
    group [start] run with [--verbose] launches [api.start], which does not
    accept arguments, with [--verbose] appended (sequential mode), and so
    does the group [dev] for [api.dev] (concurrent mode), although the
    warning printed just before says the arguments will be ignored. *)
Theorem extra_args_reach_every_action :
  Action.args api_start = Some false /\
  Action.args api_dev = Some false /\
  (let final := fst (@main plain sample_config start_verbose_request
                       healthy_os 5 initial_state) in
   hd_error (stdout final)
   = Some "WARN: Additional arguments were given to the 'start' action group, but only 1 of 2 actions accept them. The arguments will be ignored for the other action." /\
   calls final
   = [CallRun ["uvicorn"; "app"; "--verbose"] (Action.work_dir api_start);
      CallRun ["npm"; "start"; "--verbose"] (Action.work_dir web_start)]) /\
  (let final := fst (@main plain sample_config dev_verbose_request
                       healthy_os 5 initial_state) in
   calls final
   = [CallPopen ["uvicorn"; "app"; "--reload"; "--verbose"]
                (Action.work_dir api_dev);
      CallPopen ["vite"; "--verbose"] (Action.work_dir web_dev)]).
Proof. repeat split. Qed.

(** C8 fails on the code.  When a later action of a concurrent group cannot
    be launched, [run] exits with code 1 straight from the spawning loop:
    the child started before it stays in the live set, and no
    [terminate()] or [kill()] has been issued. *)
Theorem spawn_failure_leaves_children_live :
  let result := @main plain sample_config dev_request vite_missing_os 5
                  initial_state in
  snd result = Raised (SystemExit 1) /\
  processes (fst result) = [(api_dev, child 101 None 0)] /\
  calls (fst result)
  = [CallPopen ["uvicorn"; "app"; "--reload"] (Action.work_dir api_dev);
     CallPopen ["vite"] (Action.work_dir web_dev)] /\
  last (stdout (fst result)) "" = "ERROR: No such file or directory: vite".
Proof. repeat split. Qed.

(** ** Reader threads *)

Section Readers.
Context `{Externals}.

Lemma read_loop_lines prefix lines : forall rest s,
  ActionRunner.read_loop (map Line lines ++ rest) prefix s
  = ActionRunner.read_loop rest prefix
      (printed s (map (emitted prefix) (filter str_truthy lines))).
Proof.
  induction lines as [|text lines IH]; intros rest s; cbn [map app filter].
  - f_equal. destruct s. unfold printed. cbn. now rewrite app_nil_r.
  - cbn [ActionRunner.read_loop]. unfold bind at 1.
    destruct (str_truthy text); cbn [when].
    + rewrite print_eq, IH. f_equal. unfold printed. cbn.
      now rewrite <- app_assoc.
    + cbn [ret]. apply IH.
Qed.

(** What a reader does when a read fails after some lines. *)
Lemma stream_output_failure stream prefix lines e rest s :
  reads stream = map Line lines ++ ReadFails e :: rest ->
  is_Exception e = true ->
  ActionRunner._stream_output stream prefix s
  = ({| stdout := stdout s
                  ++ map (emitted prefix) (filter str_truthy lines)
                  ++ [logger.error_line (stream_error_msg prefix e)];
        processes := processes s;
        threads := threads s;
        calls := calls s ++ [CallClose (stream_id stream)] |},
     Raised (SystemExit 1)).
Proof.
  intros Hreads Hexn. unfold ActionRunner._stream_output, try_finally, try_except.
  rewrite Hreads, read_loop_lines. cbn [ActionRunner.read_loop raise].
  unfold raise. rewrite Hexn. cbn. now rewrite <- app_assoc.
Qed.

(** What spawning an action does when the launch succeeds: two readers are
    started, with the action's prefixes, and the child joins the live set. *)
Lemma spawn_success os self action tokens proc s :
  shlex_split (Action.cmd action) = Some tokens ->
  subprocess_Popen os (tokens ++ ActionRunner.action_args self)
                   (Action.work_dir action) = Ok proc ->
  ActionRunner.spawn os self action s
  = ({| stdout := stdout s
                  ++ [fstr ["INFO: "; fstr ["Running action ";
                                             Action.str action]]];
        processes := dict_set Action.eq_dec action proc (processes s);
        threads := threads s ++ [(proc_stdout proc, stdout_prefix action);
                                 (proc_stderr proc, stderr_prefix action)];
        calls := calls s ++ [CallPopen (tokens ++ ActionRunner.action_args self)
                                       (Action.work_dir action)] |},
     Return tt).
Proof.
  intros Htok Hproc. unfold ActionRunner.spawn, ActionRunner.command_of.
  rewrite Htok. unfold logger.info, bind, try_except. cbn.
  rewrite Hproc. cbn. now rewrite <- app_assoc.
Qed.

(** *** The control thread does not depend on what the pipes deliver *)

Lemma map_outcome_id {A} (o : outcome A) : map_outcome (fun a => a) o = o.
Proof. now destruct o. Qed.

Lemma commutes_ret {A} (f : A -> A) a : commutes f (ret a) (ret (f a)).
Proof. intros s. reflexivity. Qed.

Lemma commutes_raise {A} (f : A -> A) e : commutes f (raise e) (raise e).
Proof. intros s. reflexivity. Qed.

Lemma commutes_bind {A B} (f : A -> A) (g : B -> B) m1 m2 k1 k2 :
  commutes f m1 m2 ->
  (forall a, commutes g (k1 a) (k2 (f a))) ->
  commutes g (bind m1 k1) (bind m2 k2).
Proof.
  intros Hm Hk s. unfold bind. rewrite (Hm s).
  destruct (m1 s) as [s' [a|e|]]; cbn; [apply Hk | reflexivity..].
Qed.

Lemma commutes_when c m1 m2 :
  commutes (fun u => u) m1 m2 -> commutes (fun u => u) (when c m1) (when c m2).
Proof. destruct c; [trivial | intros _ s; reflexivity]. Qed.

Lemma commutes_try_except {A} (f : A -> A) b1 b2 catches h1 h2 :
  commutes f b1 b2 ->
  (forall e, commutes f (h1 e) (h2 e)) ->
  commutes f (try_except b1 catches h1) (try_except b2 catches h2).
Proof.
  intros Hb Hh s. unfold try_except. rewrite (Hb s).
  destruct (b1 s) as [s' [a|e|]]; cbn; try reflexivity.
  destruct (catches e); [apply Hh | reflexivity].
Qed.

Lemma commutes_for_each {A} (h : A -> A) (l : list A) body1 body2 :
  (forall x, commutes (fun u => u) (body1 x) (body2 (h x))) ->
  commutes (fun u : unit => u) (for_each l body1) (for_each (map h l) body2).
Proof.
  intros Hbody. induction l as [|x l IH]; cbn [for_each map].
  - intros s. reflexivity.
  - eapply commutes_bind; [apply Hbody | intros _; exact IH].
Qed.

Lemma commutes_print line : commutes (fun u => u) (print line) (print line).
Proof. intros s. reflexivity. Qed.

Lemma commutes_record_call c :
  commutes (fun u => u) (record_call c) (record_call c).
Proof. intros s. reflexivity. Qed.

Lemma commutes_get_processes :
  commutes (map hush_item) get_processes get_processes.
Proof. intros s. reflexivity. Qed.

Lemma commutes_set_processes d :
  commutes (fun u => u) (set_processes d) (set_processes (map hush_item d)).
Proof. intros s. reflexivity. Qed.

Lemma commutes_start_thread st prefix :
  commutes (fun u => u) (start_thread st prefix) (start_thread (quiet st) prefix).
Proof.
  intros s. unfold start_thread, hush_state. cbn. now rewrite map_app.
Qed.

Lemma commutes_may_raise e :
  commutes (fun u => u) (may_raise e) (may_raise e).
Proof. destruct e; intros s; reflexivity. Qed.

Lemma commutes_lift_same {A} (r : result A) :
  commutes (fun a => a) (lift r) (lift r).
Proof. destruct r; intros s; reflexivity. Qed.

Lemma dict_set_hush a p ps :
  dict_set Action.eq_dec a (hush p) (map hush_item ps)
  = map hush_item (dict_set Action.eq_dec a p ps).
Proof.
  induction ps as [|[a' p'] ps IH]; cbn; [reflexivity|].
  destruct (Action.eq_dec a a'); cbn; [reflexivity | now rewrite IH].
Qed.

Lemma dict_del_hush a ps :
  dict_del Action.eq_dec a (map hush_item ps)
  = map hush_item (dict_del Action.eq_dec a ps).
Proof.
  induction ps as [|[a' p'] ps IH]; cbn; [reflexivity|].
  destruct (Action.eq_dec a a'); cbn; [reflexivity | now rewrite IH].
Qed.

Lemma nonempty_map {A B} (f : A -> B) l : nonempty (map f l) = nonempty l.
Proof. now destruct l. Qed.

Lemma commutes_logger_info msg :
  commutes (fun u => u) (logger.info msg) (logger.info msg).
Proof. apply commutes_print. Qed.

Lemma commutes_logger_warn msg :
  commutes (fun u => u) (logger.warn msg) (logger.warn msg).
Proof. apply commutes_print. Qed.

Lemma commutes_logger_error msg exiting :
  commutes (fun u => u) (logger.error msg exiting) (logger.error msg exiting).
Proof.
  unfold logger.error. eapply commutes_bind; [apply commutes_print|].
  intros _. apply commutes_when. intros s. reflexivity.
Qed.

Lemma commutes_command_of self action :
  commutes (fun c => c) (ActionRunner.command_of self action)
           (ActionRunner.command_of self action).
Proof.
  unfold ActionRunner.command_of.
  destruct (shlex_split (Action.cmd action)); intros s; reflexivity.
Qed.

Lemma commutes_spawn os self action :
  commutes (fun u => u) (ActionRunner.spawn os self action)
           (ActionRunner.spawn (hush_os os) self action).
Proof.
  unfold ActionRunner.spawn.
  eapply commutes_bind; [apply commutes_logger_info | intros _].
  eapply commutes_bind; [apply commutes_command_of | intros command].
  eapply commutes_bind; [apply commutes_record_call | intros _].
  eapply (commutes_bind (option_map hush)).
  - apply commutes_try_except.
    + cbn [hush_os subprocess_Popen].
      destruct (subprocess_Popen os command (Action.work_dir action));
        intros s; reflexivity.
    + intros e. eapply commutes_bind; [apply commutes_logger_error|].
      intros _ s. reflexivity.
  - intros [proc|]; cbn [option_map]; [|apply commutes_raise].
    eapply commutes_bind; [apply commutes_start_thread | intros _].
    eapply commutes_bind; [apply commutes_start_thread | intros _].
    eapply commutes_bind; [apply commutes_get_processes | intros ps].
    rewrite dict_set_hush. apply commutes_set_processes.
Qed.

Lemma commutes_poll_all round :
  commutes (fun u => u) (ActionRunner.poll_all round)
           (ActionRunner.poll_all round).
Proof.
  unfold ActionRunner.poll_all.
  eapply commutes_bind; [apply commutes_get_processes | intros ps].
  unfold dict_items. apply commutes_for_each. intros [action proc].
  cbn [hush_item fst snd hush poll].
  destruct (poll proc round); [|intros s; reflexivity].
  eapply commutes_bind; [apply commutes_logger_info | intros _].
  eapply commutes_bind; [apply commutes_get_processes | intros ps'].
  rewrite dict_del_hush. apply commutes_set_processes.
Qed.

Lemma commutes_wait_loop os fuel : forall round,
  commutes (fun u => u) (ActionRunner.wait_loop os fuel round)
           (ActionRunner.wait_loop (hush_os os) fuel round).
Proof.
  induction fuel as [|fuel IH]; intros round; cbn [ActionRunner.wait_loop].
  - eapply commutes_bind; [apply commutes_get_processes | intros ps].
    rewrite nonempty_map. destruct (nonempty ps); intros s; reflexivity.
  - eapply commutes_bind; [apply commutes_get_processes | intros ps].
    rewrite nonempty_map. destruct (nonempty ps); [|intros s; reflexivity].
    eapply commutes_bind; [apply commutes_poll_all | intros _].
    eapply commutes_bind; [apply commutes_get_processes | intros ps'].
    rewrite nonempty_map.
    eapply commutes_bind; [|intros _; apply IH].
    apply commutes_when. cbn [hush_os time_sleep]. apply commutes_lift_same.
Qed.

Lemma commutes_kill_one ap :
  commutes (fun u => u) (ActionRunner.kill_one ap)
           (ActionRunner.kill_one (hush_item ap)).
Proof.
  destruct ap as [action proc]. unfold ActionRunner.kill_one.
  cbn [hush_item fst snd hush pid on_terminate on_wait_timeout on_kill on_wait].
  apply commutes_try_except; [|intros e; apply commutes_logger_error].
  eapply commutes_bind; [apply commutes_record_call | intros _].
  eapply commutes_bind; [apply commutes_may_raise | intros _].
  eapply commutes_bind; [|intros _; apply commutes_logger_info].
  apply commutes_try_except.
  - eapply commutes_bind; [apply commutes_record_call | intros _].
    apply commutes_may_raise.
  - intros _.
    eapply commutes_bind; [apply commutes_record_call | intros _].
    eapply commutes_bind; [apply commutes_may_raise | intros _].
    eapply commutes_bind; [apply commutes_record_call | intros _].
    apply commutes_may_raise.
Qed.

Lemma commutes_kill_all :
  commutes (fun u => u) ActionRunner._kill_all_processes
           ActionRunner._kill_all_processes.
Proof.
  unfold ActionRunner._kill_all_processes.
  eapply commutes_bind; [apply commutes_get_processes | intros ps].
  eapply commutes_bind; [|intros _; apply (commutes_set_processes [])].
  unfold dict_items. apply commutes_for_each. apply commutes_kill_one.
Qed.

Lemma commutes_run_simultaneously os fuel self :
  commutes (fun u => u) (ActionRunner.run_simultaneously os fuel self)
           (ActionRunner.run_simultaneously (hush_os os) fuel self).
Proof.
  unfold ActionRunner.run_simultaneously, ActionRunner.spawn_and_wait,
    ActionRunner.on_interrupt.
  eapply commutes_bind; [apply commutes_logger_info | intros _].
  apply commutes_try_except.
  - eapply commutes_bind.
    + rewrite <- (map_id (ActionRunner.actions self)) at 2.
      apply commutes_for_each. intros a. apply commutes_spawn.
    + intros _.
      eapply commutes_bind; [apply commutes_wait_loop | intros _].
      eapply commutes_bind; [apply commutes_print | intros _].
      apply commutes_logger_info.
  - intros _.
    eapply commutes_bind; [apply commutes_print | intros _].
    eapply commutes_bind; [apply commutes_logger_warn | intros _].
    eapply commutes_bind; [apply commutes_kill_all | intros _].
    intros s. reflexivity.
Qed.

Lemma commutes_run_in_series os self :
  commutes (fun u => u) (ActionRunner.run_in_series os self)
           (ActionRunner.run_in_series (hush_os os) self).
Proof.
  unfold ActionRunner.run_in_series.
  eapply commutes_bind; [apply commutes_logger_info | intros _].
  eapply commutes_bind;
    [|intros _; eapply commutes_bind;
                  [apply commutes_print | intros _; apply commutes_logger_info]].
  rewrite <- (map_id (ActionRunner.actions self)) at 2.
  apply commutes_for_each. intros action. unfold ActionRunner.run_one.
  eapply commutes_bind; [apply commutes_print | intros _].
  eapply commutes_bind; [apply commutes_logger_info | intros _].
  eapply commutes_bind; [apply commutes_command_of | intros command].
  eapply commutes_bind; [apply commutes_record_call | intros _].
  apply commutes_try_except; [|intros e; apply commutes_logger_error].
  cbn [hush_os subprocess_run].
  eapply commutes_bind; [apply commutes_lift_same | intros code].
  apply commutes_logger_info.
Qed.

Lemma commutes_run os fuel self :
  commutes (fun u => u) (ActionRunner.run os fuel self)
           (ActionRunner.run (hush_os os) fuel self).
Proof.
  unfold ActionRunner.run. destruct (ActionRunner.can_run_simultaneously self);
    [apply commutes_run_simultaneously | apply commutes_run_in_series].
Qed.

End Readers.


(** ** Working directories *)

Lemma split_on_no_slash s : Forall (fun w => no_slash w = true) (split_on slash s).
Proof.
  induction s as [|c s IH]; cbn.
  - now repeat constructor.
  - destruct (Ascii.eqb c slash) eqn:Hc.
    + now constructor.
    + destruct (split_on slash s) as [|w ws]; inversion IH; subst;
        repeat constructor; cbn; rewrite ?Hc; auto.
Qed.

Lemma parse_path_parts_ok s : parts_ok (parse_path s).
Proof.
  unfold parts_ok, parse_path. cbn [parts].
  pose proof (split_on_no_slash s) as Hall.
  induction (split_on slash s) as [|w ws IH]; cbn; [constructor|].
  inversion Hall as [|? ? Hw Hws]; subst.
  destruct (negb (String.eqb w "") && negb (String.eqb w ".")) eqn:Hk.
  - constructor; [|now apply IH]. unfold part_ok. now rewrite Hk, Hw.
  - now apply IH.
Qed.

Lemma joinpath_parts_ok a b : parts_ok a -> parts_ok b -> parts_ok (joinpath a b).
Proof.
  unfold parts_ok, joinpath. intros Ha Hb.
  destruct (anchor_of b); cbn [parts]; try assumption.
  apply Forall_app. now split.
Qed.

Lemma rebase_path_parts_ok root w : parts_ok root -> parts_ok (rebase_path root w).
Proof.
  intros Hroot. unfold rebase_path.
  destruct (is_relative_to (parse_path w) root).
  - apply parse_path_parts_ok.
  - apply joinpath_parts_ok; [exact Hroot | apply parse_path_parts_ok].
Qed.

Lemma parse_path_anchor_relative s :
  s = "" \/ (exists c r, s = String c r /\ Ascii.eqb c slash = false) ->
  anchor_of (parse_path s) = Relative.
Proof.
  intros [-> | (c & r & -> & Hc)]; [reflexivity|].
  unfold parse_path. cbn [anchor_of].
  destruct r as [|b [|d r]]; now rewrite Hc.
Qed.

Lemma part_ok_head w :
  part_ok w = true -> exists c r, w = String c r /\ Ascii.eqb c slash = false.
Proof.
  unfold part_ok. destruct w as [|c r]; cbn; [discriminate|].
  intros Hok. exists c, r. split; [reflexivity|].
  apply andb_prop in Hok as [_ Hns]. apply andb_prop in Hns as [Hc _].
  now destruct (Ascii.eqb c slash).
Qed.

Lemma concat_parts_head (ps : list string) :
  Forall (fun w => part_ok w = true) ps ->
  String.concat "/" ps = "" \/
  (exists c r, String.concat "/" ps = String c r /\ Ascii.eqb c slash = false).
Proof.
  intros Hall. destruct ps as [|w ws]; [now left | right].
  inversion Hall as [|? ? Hw _]; subst.
  destruct (part_ok_head w Hw) as (c & r & -> & Hc).
  destruct ws; cbn; eauto.
Qed.

Lemma is_prefix_app xs ys : is_prefix xs (xs ++ ys) = true.
Proof.
  induction xs as [|x xs IH]; cbn; [reflexivity|].
  destruct (string_dec x x); [exact IH | congruence].
Qed.

Lemma is_relative_to_joinpath root q :
  anchor_of q = Relative -> is_relative_to (joinpath root q) root = true.
Proof.
  intros Hq. unfold is_relative_to, joinpath. rewrite Hq. cbn [anchor_of parts].
  destruct (anchor_eq_dec (anchor_of root) (anchor_of root)); [|congruence].
  apply is_prefix_app.
Qed.

(** The string that [rebase_path] joins to the new root names a relative
    path, unless the path given starts with exactly two slashes. *)
Lemma rootless_is_relative p :
  parts_ok p -> anchor_of p <> DoubleRoot ->
  anchor_of (parse_path
               match str_path p with
               | String a rest => if Ascii.eqb a slash then rest else str_path p
               | EmptyString => str_path p
               end) = Relative.
Proof.
  intros Hok Hanchor. unfold str_path.
  destruct (concat_parts_head (parts p) Hok) as [Hempty | (c & r & Hbody & Hc)].
  - rewrite Hempty. destruct (anchor_of p); cbn; try reflexivity. congruence.
  - rewrite Hbody. destruct (anchor_of p); cbn [str_truthy].
    + rewrite Hc. apply parse_path_anchor_relative. right. eauto.
    + replace (Ascii.eqb slash slash) with true by reflexivity.
      apply parse_path_anchor_relative. right. eauto.
    + congruence.
Qed.

Theorem rebase_path_rooted root w :
  anchor_of (parse_path w) <> DoubleRoot ->
  is_relative_to (rebase_path root w) root = true.
Proof.
  intros Hanchor. unfold rebase_path.
  destruct (is_relative_to (parse_path w) root) eqn:Hrel; [exact Hrel|].
  apply is_relative_to_joinpath.
  apply rootless_is_relative; [apply parse_path_parts_ok | exact Hanchor].
Qed.

(** ** Construction of modules *)

Lemma model_validate_eq h module_name data root :
  get_git_repo_root h = Ok root ->
  Mod.model_validate h module_name data
  = Mod.assert_workdir_exists h (built_module root module_name data).
Proof.
  intros Hroot.
  unfold Mod.model_validate, Mod.rebase_workdir_onto_git_repo_root,
    Mod.set_additional_action_fields.
  rewrite Hroot. cbn [rbind rawm_work_dir rawm_actions].
  unfold built_module, module_dir. f_equal. f_equal.
  unfold dict_items. apply map_ext. intros [k ra].
  unfold built_action, action_dir, module_dir. cbn [fst snd]. reflexivity.
Qed.

(** Construction of a module succeeds exactly when the module's own
    directory exists; the directories of its actions are not looked at. *)
Theorem module_construction h module_name data root :
  get_git_repo_root h = Ok root ->
  (path_exists h (module_dir root data) = true ->
   Mod.model_validate h module_name data
   = Ok (built_module root module_name data)) /\
  (path_exists h (module_dir root data) = false ->
   exists msg, Mod.model_validate h module_name data = Raise (ValueError msg)).
Proof.
  intros Hroot. rewrite (model_validate_eq _ _ _ _ Hroot).
  unfold Mod.assert_workdir_exists. cbn [built_module Mod.work_dir].
  split; intros Hex; rewrite Hex; cbn [negb]; [reflexivity|].
  rewrite Hroot. cbn [rbind].
  destruct (is_relative_to (module_dir root data) root); eauto.
Qed.

Lemma rebase_path_rooted_witness :
  is_relative_to (rebase_path (parse_path "/repo") "/backend/x")
                 (parse_path "/repo") = true.
Proof.
  apply (rebase_path_rooted (parse_path "/repo") "/backend/x"). discriminate.
Defined.

Lemma module_construction_witness :
  Mod.model_validate api_only_host "api" raw_api
  = Ok (built_module (parse_path "/repo") "api" raw_api) /\
  path_exists api_only_host
    (action_dir (parse_path "/repo") (module_dir (parse_path "/repo") raw_api)
       {| raw_cmd := "uvicorn app"; raw_args := Some false;
          raw_watch_cmd := None; raw_work_dir := Some "missing";
          raw_bg := Some false |}) = false.
Proof.
  split; [|reflexivity].
  exact (proj1 (module_construction api_only_host "api" raw_api
                  (parse_path "/repo") eq_refl) eq_refl).
Defined.

(** Outside a git checkout no module can be built, so every configuration
    with at least one module is refused; the error is the one raised by
    [get_git_repo_root], not a validation error. *)
Theorem not_in_git_repository h :
  (0 < git_returncode h)%Z ->
  (forall module_name data,
     Mod.model_validate h module_name data
     = Raise (FileNotFoundError "Not in a Git repository." None)) /\
  (forall data, data <> [] ->
     BPMConfig.model_validate h data
     = Raise (FileNotFoundError "Not in a Git repository." None)).
Proof.
  intros Hrc.
  assert (Hroot : get_git_repo_root h
                  = Raise (FileNotFoundError "Not in a Git repository." None)).
  { unfold get_git_repo_root. apply Z.ltb_lt in Hrc. now rewrite Hrc. }
  assert (Hmod : forall module_name data,
             Mod.model_validate h module_name data
             = Raise (FileNotFoundError "Not in a Git repository." None)).
  { intros module_name data.
    unfold Mod.model_validate, Mod.rebase_workdir_onto_git_repo_root.
    now rewrite Hroot. }
  split; [exact Hmod|].
  intros [|[k rm] data] Hne; [congruence|].
  unfold BPMConfig.model_validate, dict_items. cbn [rmap fst snd rbind].
  now rewrite Hmod.
Qed.

Lemma not_in_git_repository_witness :
  BPMConfig.model_validate outside_git [("api", raw_api)]
  = Raise (FileNotFoundError "Not in a Git repository." None).
Proof.
  apply (proj2 (not_in_git_repository outside_git eq_refl)). discriminate.
Defined.

(** ** Construction of the configuration *)

Lemma rmap_modules_ok h root data :
  get_git_repo_root h = Ok root ->
  Forall (fun km => path_exists h (module_dir root (snd km)) = true) data ->
  rmap (fun km : string * RawModule =>
          m <-? Mod.model_validate h (fst km) (snd km) ; Ok (fst km, m)) data
  = Ok (map (fun km => (fst km, built_module root (fst km) (snd km))) data).
Proof.
  intros Hroot Hall. induction Hall as [|km data Hkm _ IH]; cbn [rmap map].
  - reflexivity.
  - rewrite (proj1 (module_construction h (fst km) (snd km) root Hroot) Hkm).
    cbn [rbind]. now rewrite IH.
Qed.

Lemma rmap_modules_fail h root data :
  get_git_repo_root h = Ok root ->
  Exists (fun km => path_exists h (module_dir root (snd km)) = false) data ->
  exists msg,
    rmap (fun km : string * RawModule =>
            m <-? Mod.model_validate h (fst km) (snd km) ; Ok (fst km, m)) data
    = Raise (ValueError msg).
Proof.
  intros Hroot Hex. induction data as [|km data IH]; [inversion Hex|].
  cbn [rmap].
  destruct (path_exists h (module_dir root (snd km))) eqn:Hkm.
  - rewrite (proj1 (module_construction h (fst km) (snd km) root Hroot) Hkm).
    cbn [rbind].
    inversion Hex as [? ? Hhere | ? ? Hlater]; subst; [congruence|].
    destruct (IH Hlater) as [msg ->]. now exists msg.
  - destruct (proj2 (module_construction h (fst km) (snd km) root Hroot) Hkm)
      as [msg ->].
    now exists msg.
Qed.

(** A configuration is built exactly when the directory of every module
    exists; one missing module directory refuses the whole configuration. *)
Theorem config_construction h data root :
  get_git_repo_root h = Ok root ->
  (Forall (fun km => path_exists h (module_dir root (snd km)) = true) data ->
   BPMConfig.model_validate h data = Ok (built_config root data)) /\
  (Exists (fun km => path_exists h (module_dir root (snd km)) = false) data ->
   exists msg, BPMConfig.model_validate h data = Raise (ValueError msg)).
Proof.
  intros Hroot. unfold BPMConfig.model_validate, dict_items. split.
  - intros Hall. now rewrite (rmap_modules_ok h root data Hroot Hall).
  - intros Hex. destruct (rmap_modules_fail h root data Hroot Hex) as [msg ->].
    now exists msg.
Qed.

Lemma config_construction_witness :
  BPMConfig.model_validate api_only_host [("api", raw_api)]
  = Ok (built_config (parse_path "/repo") [("api", raw_api)]) /\
  exists msg,
    BPMConfig.model_validate api_only_host [("api", raw_api); ("docs", raw_docs)]
    = Raise (ValueError msg).
Proof.
  split.
  - apply (proj1 (config_construction api_only_host [("api", raw_api)]
                    (parse_path "/repo") eq_refl)).
    repeat constructor.
  - apply (proj2 (config_construction api_only_host
                    [("api", raw_api); ("docs", raw_docs)]
                    (parse_path "/repo") eq_refl)).
    apply Exists_cons_tl, Exists_cons_hd. reflexivity.
Defined.
